(** * scanpy.preprocessing.normalization: quantile / total-count normalization

    A shallow embedding of [_normalize_data], [normalize_quantile] and
    [normalize_total] from [scanpy/preprocessing/normalization.py], and the
    properties of these routines.

    Numbers.  numpy floats are modelled as rationals extended with the
    IEEE special values [+inf], [-inf] and [nan]; division by zero and
    [nan] propagation are kept, because the code guards against zero
    divisors explicitly; the sign of zero is not. The functions are
    translated twice: first with exact operations, and then, in the module
    [Generic], with the operations that round (sum, product, quotient and
    the reduction of a row) taken from an [arithmetic]. Exact arithmetic and
    the IEEE formats binary64 and binary32 are instances of it. What is
    proved for every arithmetic holds for the one numpy computes in; what is
    proved for the exact functions alone is a statement about exact
    arithmetic.

    Matrices.  A matrix is a dense array (a list of rows) or a CSR sparse
    matrix (per row, the stored [(column, value)] entries).

    State.  The annotated data object holds the primary matrix [X], the
    named [layers] and the per-row metadata [obs]; functions that mutate
    their argument return its final content. *)

From stdpp Require Import gmap strings list fin_maps numbers sorting.
From Stdlib Require Import QArith Qcanon Field.

Local Open Scope Qc_scope.

(** ** Extended rationals standing for numpy floats *)

Inductive np_float : Type :=
  | Fin (q : Qc)
  | PInf
  | NInf
  | NaN.

Global Instance np_float_eq_dec : EqDecision np_float.
Proof. solve_decision. Defined.

Definition fz (n : Z) : np_float := Fin (Q2Qc (inject_Z n)).
Definition fq (n : Z) (d : positive) : np_float := Fin (Q2Qc (n # d)).

Definition isnan (x : np_float) : bool :=
  match x with NaN => true | _ => false end.

Definition is_finite (x : np_float) : Prop :=
  match x with Fin _ => True | _ => False end.

(** The infinity (or nan) with the sign of [a]: [a / 0] and [a * inf]. *)
Definition signed_inf (a : Qc) : np_float :=
  if decide (0 < a) then PInf else if decide (a < 0) then NInf else NaN.

Definition fneg (x : np_float) : np_float :=
  match x with
  | Fin q => Fin (- q)
  | PInf => NInf
  | NInf => PInf
  | NaN => NaN
  end.

Definition fadd (x y : np_float) : np_float :=
  match x, y with
  | NaN, _ | _, NaN => NaN
  | Fin a, Fin b => Fin (a + b)
  | PInf, NInf | NInf, PInf => NaN
  | PInf, _ | _, PInf => PInf
  | NInf, _ | _, NInf => NInf
  end.

Definition fmul (x y : np_float) : np_float :=
  match x, y with
  | NaN, _ | _, NaN => NaN
  | Fin a, Fin b => Fin (a * b)
  | Fin a, PInf | PInf, Fin a => signed_inf a
  | Fin a, NInf | NInf, Fin a => fneg (signed_inf a)
  | PInf, PInf | NInf, NInf => PInf
  | PInf, NInf | NInf, PInf => NInf
  end.

Definition fdiv (x y : np_float) : np_float :=
  match x, y with
  | NaN, _ | _, NaN => NaN
  | Fin a, Fin b => if decide (b = 0) then signed_inf a else Fin (a / b)
  | Fin _, (PInf | NInf) => Fin 0
  | PInf, Fin b => if decide (b < 0) then NInf else PInf
  | NInf, Fin b => if decide (b < 0) then PInf else NInf
  | (PInf | NInf), (PInf | NInf) => NaN
  end.

(** Comparisons; every comparison with [nan] is false. *)
Definition fltb (x y : np_float) : bool :=
  match x, y with
  | Fin a, Fin b => bool_decide (a < b)
  | NInf, (Fin _ | PInf) | Fin _, PInf => true
  | _, _ => false
  end.

Definition fleb (x y : np_float) : bool :=
  match x, y with
  | NaN, _ | _, NaN => false
  | Fin a, Fin b => bool_decide (a <= b)
  | NInf, _ | _, PInf => true
  | _, _ => false
  end.

Definition fgtb (x y : np_float) : bool := fltb y x.
Definition fgeb (x y : np_float) : bool := fleb y x.

Definition feqb (x y : np_float) : bool :=
  match x, y with
  | Fin a, Fin b => bool_decide (a = b)
  | PInf, PInf | NInf, NInf => true
  | _, _ => false
  end.

(** A boolean used as a number, as in [counts += (counts == 0)]. *)
Definition of_bool (b : bool) : np_float := if b then Fin 1 else Fin 0.

(** ** numpy reductions on vectors *)

(** [a.sum()]. *)
Definition np_sum (a : list np_float) : np_float := foldr fadd (Fin 0) a.

(** [a.mean()]: the sum divided by the number of items ([nan] when empty). *)
Definition np_mean (a : list np_float) : np_float :=
  fdiv (np_sum a) (fz (Z.of_nat (length a))).

Definition fle (x y : np_float) : Prop := fleb x y = true.

Global Instance fle_dec x y : Decision (fle x y).
Proof. unfold fle. apply _. Defined.

(** [np.median(a)] for a one-dimensional array: [nan] if an item is [nan];
    otherwise the mean of the middle item, or of the two middle items, of the
    sorted array. The slice is empty, and the mean [nan], for an empty array. *)
Definition np_median (a : list np_float) : np_float :=
  let sz := length a in
  let part := merge_sort fle a in
  let index := (sz / 2)%nat in
  let middle :=
    if Nat.odd sz then take 1 (drop index part)
    else take 2 (drop (index - 1) part) in
  if existsb isnan a then NaN else np_mean middle.

(** [a[mask]]: the items of [a] at the positions where [mask] holds. *)
Fixpoint mask_select {A} (mask : list bool) (a : list A) : list A :=
  match mask, a with
  | b :: mask', x :: a' =>
      if b then x :: mask_select mask' a' else mask_select mask' a'
  | _, _ => []
  end.

(** ** Matrices *)

Inductive matrix : Type :=
  | Dense (ncols : nat) (rows : list (list np_float))
  | Csr (ncols : nat) (rows : list (list (nat * np_float))).

Global Instance matrix_eq_dec : EqDecision matrix.
Proof. solve_decision. Defined.

Definition issparse (M : matrix) : bool :=
  match M with Dense _ _ => false | Csr _ _ => true end.

Definition n_vars (M : matrix) : nat :=
  match M with Dense n _ | Csr n _ => n end.

(** The dense row a CSR row stands for: stored entries of one column add up,
    columns without a stored entry are zero. *)
Definition todense_row (n : nat) (entries : list (nat * np_float)) : list np_float :=
  (λ j, np_sum ((filter (λ e : nat * np_float, e.1 = j) entries).*2)) <$> seq 0 n.

Definition todense (M : matrix) : list (list np_float) :=
  match M with
  | Dense _ r => r
  | Csr n r => todense_row n <$> r
  end.

(** [np.ravel(M.sum(1))]: the row sums. *)
Definition sum1 (M : matrix) : list np_float :=
  match M with
  | Dense _ r => np_sum <$> r
  | Csr _ r => (λ entries : list (nat * np_float), np_sum entries.*2) <$> r
  end.

(** [M > t[:, None]]: the boolean matrix of the entries that exceed their
    row's threshold (a sparse [M] is compared as a dense matrix). *)
Definition gt_rows (M : matrix) (t : list np_float) : list (list bool) :=
  zip_with (λ (row : list np_float) ti, (λ x, fgtb x ti) <$> row) (todense M) t.

(** [np.ravel(B.sum(0))] for a boolean matrix with [n] columns: the number
    of true entries of each column. *)
Definition sum0 (n : nat) (B : list (list bool)) : list nat :=
  (λ j, length (filter (λ row : list bool, row !! j = Some true) B)) <$> seq 0 n.

Definition count_true (mask : list bool) : nat :=
  length (filter (λ b, b = true) mask).

(** [data[:, mask].X]: the matrix restricted to the columns where [mask]
    holds. *)
Definition col_slice (mask : list bool) (M : matrix) : matrix :=
  match M with
  | Dense _ r => Dense (count_true mask) (mask_select mask <$> r)
  | Csr _ r =>
      Csr (count_true mask)
        ((λ entries : list (nat * np_float),
           (λ e : nat * np_float, (count_true (take e.1 mask), e.2)) <$>
             filter (λ e : nat * np_float, mask !! e.1 = Some true) entries) <$> r)
  end.

(** [X /= counts[:, None]] on a dense array. *)
Definition dense_row_div (r : list (list np_float)) (counts : list np_float)
  : list (list np_float) :=
  zip_with (λ (row : list np_float) c, (λ x, fdiv x c) <$> row) r counts.

(** [sklearn.utils.sparsefuncs.inplace_row_scale(X, scale)]: multiplies the
    stored entries of each row of a CSR matrix by the row's scale, in place.
    The library function has no return value. *)
Definition inplace_row_scale (r : list (list (nat * np_float))) (scale : list np_float)
  : list (list (nat * np_float)) :=
  zip_with (λ (entries : list (nat * np_float)) s,
              (λ e : nat * np_float, (e.1, fmul e.2 s)) <$> entries) r scale.

(** ** The row-scaling primitive *)

(** The divisors as [_normalize_data] transforms them (lines 8 to 15). *)
Definition resolve_after (counts : list np_float) (after : option np_float)
    (cell_subset : option (list bool)) : np_float :=
  match after with
  | Some a => a
  | None =>
      match cell_subset with
      | Some m => np_median (mask_select m counts)
      | None => np_median counts
      end
  end.

Definition divide_counts (counts : list np_float) (after : np_float)
    (cell_subset : option (list bool)) : list np_float :=
  match cell_subset with
  | None => (λ c, fdiv c after) <$> counts
  | Some m => zip_with (λ c (b : bool), if b then fdiv c after else Fin 1) counts m
  end.

(** Line 15, [counts += (counts == 0)], on one divisor and on the vector. *)
Definition guard (c : np_float) : np_float := fadd c (of_bool (feqb c (Fin 0))).

Definition zero_guard (counts : list np_float) : list np_float := guard <$> counts.

Definition divisors (counts : list np_float) (after : option np_float)
    (cell_subset : option (list bool)) : list np_float :=
  zero_guard (divide_counts counts (resolve_after counts after cell_subset) cell_subset).

(** Lines 16 to 19: what the scaling leaves in the storage of [X]. The dense
    branch divides by the divisors, the sparse branch multiplies the stored
    entries by [1/counts]. *)
Definition row_scale (X : matrix) (counts : list np_float) : matrix :=
  match X with
  | Csr n r => Csr n (inplace_row_scale r ((λ c, fdiv (Fin 1) c) <$> counts))
  | Dense n r => Dense n (dense_row_div r counts)
  end.

(** [_normalize_data X counts after cell_subset copy] returns the value the
    Python function returns ([None] or a matrix) and the content of the
    caller's [X] object when the call ends. With [copy] the scaling acts on a
    fresh copy. In the sparse branch the local name [X] is rebound to the
    result of [inplace_row_scale], which is [None], and that is what
    [return X if copy else None] then yields. *)
Definition _normalize_data (X : matrix) (counts : list np_float)
    (after : option np_float) (cell_subset : option (list bool)) (copy : bool)
  : option matrix * matrix :=
  let counts := divisors counts after cell_subset in
  let scaled := row_scale X counts in
  let local_X := if issparse X then None else Some scaled in
  (if copy then local_X else None, if copy then X else scaled).

(** ** The annotated data object and the public functions *)

Record AnnData : Type := mkAnnData {
  X : matrix;
  layers : gmap string matrix;
  obs : gmap string (list np_float)
}.

Global Instance AnnData_eq_dec : EqDecision AnnData.
Proof. solve_decision. Defined.

Inductive exn : Type :=
  | ValueError (msg : string)
  | NameError (name : string)
  | KeyError (key : string).

Global Instance exn_eq_dec : EqDecision exn.
Proof. solve_decision. Defined.

(** The [layers] argument: a string (['all'] selects every layer, any other
    string is iterated character by character) or a list of names. *)
Inductive layers_arg : Type :=
  | LayersStr (s : string)
  | LayersList (names : list string).

Definition selected_layers (data : AnnData) (sel : layers_arg) : list string :=
  match sel with
  | LayersStr s =>
      if decide (s = "all") then (map_to_list (layers data)).*1
      else (λ c, String c EmptyString) <$> String.list_ascii_of_string s
  | LayersList names => names
  end.

(** Lines 87 to 96: the column mask of the quantile filter. *)
Definition gene_subset_of (M : matrix) (quantile : np_float) : list bool :=
  let counts_per_cell := sum1 M in
  let over := gt_rows M ((λ c, fmul c quantile) <$> counts_per_cell) in
  (λ k, bool_decide (k = 0%nat)) <$> sum0 (n_vars M) over.

Definition gene_subset (M : matrix) (quantile : np_float) : option (list bool) :=
  if fltb quantile (Fin 1) then Some (gene_subset_of M quantile) else None.

(** Lines 100 to 103: the row sums over the columns that pass the filter. *)
Definition masked_sums (g : option (list bool)) (M : matrix) : list np_float :=
  match g with
  | None => sum1 M
  | Some g => sum1 (col_slice g M)
  end.

Definition counts_per_cell (M : matrix) (quantile : np_float) : list np_float :=
  masked_sums (gene_subset M quantile) M.

Definition cell_subset (counts : list np_float) (min_counts : np_float) : list bool :=
  (λ c, fgeb c min_counts) <$> counts.

(** The message of line 117; [dquote] is the double-quote character. *)
Definition dquote : string := String (Ascii.ascii_of_nat 34) EmptyString.

Definition layer_norm_message : string :=
  "layer_norm should be " +:+ dquote +:+ "after" +:+ dquote +:+ ", "
    +:+ dquote +:+ "X" +:+ dquote +:+ " or None".

(** Lines 111 to 117: the target total handed to the layers. *)
Definition layer_after (layer_norm : option string) (cell_sum_after : option np_float)
    (counts : list np_float) (subset : list bool) : exn + option np_float :=
  match layer_norm with
  | None => inr None
  | Some s =>
      if decide (s = "after") then inr cell_sum_after
      else if decide (s = "X") then inr (Some (np_median (mask_select subset counts)))
      else inl (ValueError layer_norm_message)
  end.

Abbreviation dat_t := (gmap string (option matrix)).

(** Lines 125 to 131: the loop over the selected layers. A missing layer
    raises [KeyError]; what was scaled before stays scaled. *)
Fixpoint normalize_layers (names : list string) (after : option np_float)
    (inplace : bool) (data : AnnData) (dat : dat_t) : (exn + dat_t) * AnnData :=
  match names with
  | [] => (inr dat, data)
  | layer :: rest =>
      match layers data !! layer with
      | None => (inl (KeyError layer), data)
      | Some L =>
          let counts := sum1 L in
          let '(ret, L') := _normalize_data L counts after None (negb inplace) in
          normalize_layers rest after inplace
            (mkAnnData (X data) (<[layer := L']> (layers data)) (obs data))
            (if inplace then dat else <[layer := ret]> dat)
      end
  end.

(** Name resolution in the body of [normalize_quantile]: the only name bound
    to a data object is the parameter [data]; no local and no name of the
    module ([np], [issparse], [sparsefuncs], [logg] and the three functions)
    holds one. *)
Definition lookup_name (data : AnnData) (name : string) : option AnnData :=
  if decide (name = "data") then Some data else None.

(** Lines 107 and 108: [adata.obs[key_n_counts] = counts_per_cell]. The name
    is resolved first; an unbound name raises [NameError]. *)
Definition store_counts (data : AnnData) (key_n_counts : option string)
    (counts : list np_float) : exn + AnnData :=
  match key_n_counts with
  | None => inr data
  | Some key =>
      match lookup_name data "adata" with
      | None => inl (NameError "adata")
      | Some target =>
          inr (mkAnnData (X target) (layers target) (<[key := counts]> (obs target)))
      end
  end.

(** [normalize_quantile]; the parameter [layers] is written [layers_] here,
    [layers] being the field of the data object. Logging has no effect on
    the data and is left out. *)
Definition normalize_quantile (data : AnnData) (cell_sum_after : option np_float)
    (quantile : np_float) (min_counts : np_float) (key_n_counts : option string)
    (inplace : bool) (layers_ : layers_arg) (layer_norm : option string)
  : (exn + option dat_t) * AnnData :=
  if fltb quantile (Fin 0) || fgtb quantile (Fin 1) then
    (inl (ValueError "Choose quantile between 0 and 1."), data)
  else
    let counts := counts_per_cell (X data) quantile in
    match store_counts data key_n_counts counts with
    | inl e => (inl e, data)
    | inr data =>
        let subset := cell_subset counts min_counts in
        match layer_after layer_norm cell_sum_after counts subset with
        | inl e => (inl e, data)
        | inr after =>
            let '(ret, X') :=
              _normalize_data (X data) counts cell_sum_after (Some subset) (negb inplace) in
            let data1 := mkAnnData X' (layers data) (obs data) in
            let dat : dat_t := if inplace then ∅ else {[ "X" := ret ]} in
            match normalize_layers (selected_layers data layers_) after inplace data1 dat with
            | (inl e, data2) => (inl e, data2)
            | (inr dat', data2) => (inr (if inplace then None else Some dat'), data2)
            end
        end
    end.

(** [normalize_total]: [counts_per_cell] is accepted and not used. *)
Definition normalize_total (data : AnnData) (cell_sum_after : option np_float)
    (counts_per_cell : option (list np_float)) (key_n_counts : option string)
    (inplace : bool) (layers_ : layers_arg) (layer_norm : option string)
    (min_counts : np_float) : (exn + option dat_t) * AnnData :=
  normalize_quantile data cell_sum_after (Fin 1) min_counts key_n_counts inplace
    layers_ layer_norm.

(** The specification of [normalize_total]: the call of [normalize_quantile]
    with the shared arguments and [quantile = 1]; there is no
    [counts_per_cell] in it. *)
Definition normalize_total_spec (data : AnnData) (cell_sum_after : option np_float)
    (key_n_counts : option string) (inplace : bool) (layers_ : layers_arg)
    (layer_norm : option string) (min_counts : np_float)
  : (exn + option dat_t) * AnnData :=
  normalize_quantile data cell_sum_after (Fin 1) min_counts key_n_counts inplace
    layers_ layer_norm.

(** ** Concrete runs *)

Definition dense_of (n : nat) (r : list (list Z)) : matrix :=
  Dense n ((λ row : list Z, fz <$> row) <$> r).

Definition adata_of (M : matrix) : AnnData := mkAnnData M ∅ ∅.

(** The matrices of the two docstring examples. *)
Definition quantile_example : AnnData :=
  adata_of (dense_of 3 [[1;0;1];[3;0;1];[5;6;1]]%Z).

Definition total_example : AnnData :=
  adata_of (dense_of 2 [[1;0];[3;0];[5;6]]%Z).

(** ** Predicates used in the statements *)

Definition finite_matrix (M : matrix) : Prop :=
  match M with
  | Dense _ r => Forall (Forall is_finite) r
  | Csr _ r => Forall (Forall (λ e : nat * np_float, is_finite e.2)) r
  end.

(** The rational a finite float holds (zero for the special values). *)
Definition to_Qc (x : np_float) : Qc :=
  match x with Fin q => q | _ => 0 end.

Definition qsum (a : list np_float) : Qc := foldr Qcplus 0 (to_Qc <$> a).


(** Rows [i] of two matrices are the same. *)
Definition same_row (M M' : matrix) (i : nat) : Prop :=
  match M, M' with
  | Dense _ r, Dense _ r' => r !! i = r' !! i
  | Csr _ r, Csr _ r' => r !! i = r' !! i
  | _, _ => False
  end.

(** The values of row [i] in the columns selected by [g] (all columns for
    [None]): the summands of [masked_sums g M] at [i]. *)
Definition row_values (g : option (list bool)) (M : matrix) (i : nat)
  : option (list np_float) :=
  match M, g with
  | Dense _ r, None => r !! i
  | Dense _ r, Some m => mask_select m <$> r !! i
  | Csr _ r, None => (λ entries : list (nat * np_float), entries.*2) <$> r !! i
  | Csr _ r, Some m =>
      (λ entries : list (nat * np_float),
         (filter (λ e : nat * np_float, m !! e.1 = Some true) entries).*2) <$> r !! i
  end.

(** What [row_scale] does to one value of a row with divisor [d]. *)
Definition scale_value (M : matrix) (d : np_float) (x : np_float) : np_float :=
  if issparse M then fmul x (fdiv (Fin 1) d) else fdiv x d.

(** What an in-place call leaves in a layer [L] scaled towards [after]. *)
Definition scaled_layer (after : option np_float) (L : matrix) : matrix :=
  row_scale L (divisors (sum1 L) after None).

(** What an in-place call leaves in the primary matrix. *)
Definition scaled_X (data : AnnData) (cell_sum_after : option np_float)
    (quantile min_counts : np_float) : matrix :=
  let counts := counts_per_cell (X data) quantile in
  row_scale (X data) (divisors counts cell_sum_after (Some (cell_subset counts min_counts))).

(** The target total of the primary matrix. *)
Definition target_total (data : AnnData) (cell_sum_after : option np_float)
    (quantile min_counts : np_float) : np_float :=
  let counts := counts_per_cell (X data) quantile in
  resolve_after counts cell_sum_after (Some (cell_subset counts min_counts)).

(** Two empty rows above a row with one count. *)
Definition zero_rows_example : AnnData :=
  adata_of (dense_of 1 [[0]; [0]; [1]]%Z).

(** The matrix of the quantile example in CSR form. *)
Definition sparse_quantile_matrix : matrix :=
  Csr 3 [[(0%nat, fz 1); (2%nat, fz 1)];
         [(0%nat, fz 3); (2%nat, fz 1)];
         [(0%nat, fz 5); (1%nat, fz 6); (2%nat, fz 1)]].

(** A layer in which two rows of three are empty. *)
Definition empty_rows_example : AnnData :=
  mkAnnData (dense_of 1 [[2]; [2]; [2]]%Z) {[ "a" := dense_of 1 [[0]; [0]; [1]]%Z ]} ∅.

(** A sparse matrix with one stored entry per row. *)
Definition sparse_example : matrix :=
  Csr 2 [[(0%nat, fz 1)]; [(0%nat, fz 3)]].

(** A layer whose first row sums to 1, under a primary matrix. *)
Definition low_row_layer : matrix := dense_of 1 [[1]; [4]; [4]]%Z.

Definition low_row_example : AnnData :=
  mkAnnData (dense_of 1 [[5]; [5]; [5]]%Z) {[ "a" := low_row_layer ]} ∅.

(** A primary matrix with row sum 2 and a layer with row sum 4. *)
Definition after_example : AnnData :=
  mkAnnData (dense_of 1 [[2]]%Z) {[ "a" := dense_of 1 [[4]]%Z ]} ∅.

(** The return value of a successful call with [inplace=False] for a layer. *)
Definition layer_copy (after : option np_float) (L : matrix) : option matrix :=
  (_normalize_data L (sum1 L) after None true).1.

(** The target total of a layer under [layer_norm = 'after']. *)
Definition layer_target (cell_sum_after : option np_float) (L : matrix) : np_float :=
  resolve_after (sum1 L) cell_sum_after None.

(** Every selected layer exists and none is selected twice. *)
Definition selection_ok (data : AnnData) (layers_ : layers_arg) : Prop :=
  NoDup (selected_layers data layers_) ∧
  ∀ n, n ∈ selected_layers data layers_ → is_Some (layers data !! n).

(** The values [layer_norm] may take. *)
Definition valid_layer_norm (layer_norm : option string) : Prop :=
  layer_norm = None ∨ layer_norm = Some "after" ∨ layer_norm = Some "X".

(** The check of line 78 lets the quantile pass. *)
Definition quantile_accepted (quantile : np_float) : Prop :=
  fltb quantile (Fin 0) || fgtb quantile (Fin 1) = false.


(** The storage of a matrix without its values: the kind, the number of
    columns and, row by row, the columns that hold a value. *)
Definition storage_pattern (M : matrix) : bool * nat * list (list nat) :=
  match M with
  | Dense n r => (false, n, (λ row : list np_float, seq 0 (length row)) <$> r)
  | Csr n r => (true, n, (λ entries : list (nat * np_float), entries.*1) <$> r)
  end.

(** The first selected name that is not a layer of the data object. *)
Definition first_missing (data : AnnData) (names : list string) : option string :=
  head (filter (λ n, layers data !! n = None) names).

(** The error of a call, read off the order of the checks: the quantile
    (line 78), the name [adata] (line 108), [layer_norm] (line 117), the
    lookup of each selected layer (line 126). *)
Definition expected_error (data : AnnData) (quantile : np_float)
    (key_n_counts : option string) (layers_ : layers_arg)
    (layer_norm : option string) : option exn :=
  if fltb quantile (Fin 0) || fgtb quantile (Fin 1) then
    Some (ValueError "Choose quantile between 0 and 1.")
  else if key_n_counts is Some _ then Some (NameError "adata")
  else if decide (valid_layer_norm layer_norm) then
    KeyError <$> first_missing data (selected_layers data layers_)
  else Some (ValueError layer_norm_message).

(** The dense array with the content of a matrix. *)
Definition dense_form (M : matrix) : matrix := Dense (n_vars M) (todense M).

(** A primary matrix with two layers, for calls that name a third. *)
Definition two_layers_example : AnnData :=
  mkAnnData (dense_of 1 [[2]; [4]]%Z)
    {[ "a" := dense_of 1 [[1]; [3]]%Z; "b" := dense_of 1 [[5]; [5]]%Z ]} ∅.

(** A data object with a layer named [spliced]. *)
Definition spliced_example : AnnData :=
  mkAnnData (dense_of 1 [[2]; [4]]%Z) {[ "spliced" := dense_of 1 [[1]; [3]]%Z ]} ∅.

(** ** The arithmetic of the array library *)

(** The functions above compute with exact rationals. numpy computes with
    the numbers of a binary floating-point format: every sum, product and
    quotient is rounded to the format, and a reduction adds its items in an
    order of its own. The operations that round are the fields of a record;
    the comparisons and the test [counts == 0], which do not round, stay
    those of the extended rationals. A number of the format is the rational
    it stands for; the sign of a zero is not kept. The sum of no item is
    zero in every library; a statement that needs this, or another law of
    the arithmetic, has it as a hypothesis. *)
Record arithmetic : Type := Arithmetic {
  fl_add : np_float → np_float → np_float;
  fl_mul : np_float → np_float → np_float;
  fl_div : np_float → np_float → np_float;
  fl_sum : list np_float → np_float
}.

(** Exact arithmetic: nothing is rounded. *)
Definition exact : arithmetic := Arithmetic fadd fmul fdiv np_sum.

(** A binary format of IEEE 754: [prec] significant bits, normal numbers
    with exponents from [1 - emax] to [emax]. *)
Record format : Type := Format { prec : Z; emax : Z }.

Definition binary64 : format := Format 53 1023.
Definition binary32 : format := Format 24 127.

(** [2 ^ e] for every integer [e]. *)
Definition pow2 (e : Z) : Q :=
  if (0 <=? e)%Z then inject_Z (2 ^ e) else (1 # Z.to_pos (2 ^ (- e)))%Q.

(** The exponent [e] of a positive rational: [2 ^ e <= q < 2 ^ (e + 1)]. *)
Definition floor_log2 (q : Q) : Z :=
  let e := (Z.log2 (Qnum q) - Z.log2 (Zpos (Qden q)))%Z in
  if Qle_bool (pow2 e) q then e else (e - 1)%Z.

(** The integer nearest to a rational that is not negative, the even one of
    two that are equally near. *)
Definition round_half_even (q : Q) : Z :=
  let k := (Qnum q / Zpos (Qden q))%Z in
  match (2 * (Qnum q mod Zpos (Qden q)) ?= Zpos (Qden q))%Z with
  | Lt => k
  | Gt => (k + 1)%Z
  | Eq => if Z.even k then k else (k + 1)%Z
  end.

(** A positive rational rounded to the nearest number of the format: a
    multiple of the quantum of its binade (of the smallest normal binade
    for a subnormal number), or [inf] beyond the largest number. *)
Definition round_pos (f : format) (q : Q) : np_float :=
  let e := floor_log2 q in
  let quantum := (Z.max e (1 - emax f) - (prec f - 1))%Z in
  let k := round_half_even (q * pow2 (- quantum))%Q in
  if (emax f <? e)%Z || ((e =? emax f)%Z && (k =? 2 ^ prec f)%Z) then PInf
  else Fin (Q2Qc (inject_Z k * pow2 quantum)%Q).

Definition round (f : format) (x : np_float) : np_float :=
  match x with
  | Fin q =>
      match (Qnum (this q) ?= 0)%Z with
      | Eq => Fin 0
      | Gt => round_pos f (this q)
      | Lt => fneg (round_pos f (- this q)%Q)
      end
  | _ => x
  end.

(** The arithmetic of a format: each operation is the exact one, rounded.
    The sum adds the items from left to right, as numpy does for the short
    rows of the examples (it adds a long row pairwise). *)
Definition ieee (f : format) : arithmetic :=
  Arithmetic (λ x y, round f (fadd x y)) (λ x y, round f (fmul x y))
    (λ x y, round f (fdiv x y))
    (foldl (λ acc x, round f (fadd acc x)) (Fin 0)).

(** A number of the format. *)
Definition representable (f : format) (x : np_float) : Prop := round f x = x.

(** ** The three functions over an arithmetic *)

(** The same translation of lines 6 to 139, with the operations of an
    arithmetic [A] in the place of the exact ones. Functions that do no
    arithmetic ([mask_select], [sum0], [col_slice], [cell_subset],
    [selected_layers], [store_counts]) are those above. *)
Module Generic.
Section WithArithmetic.

Context (A : arithmetic).

Definition np_mean (a : list np_float) : np_float :=
  fl_div A (fl_sum A a) (fz (Z.of_nat (length a))).

Definition np_median (a : list np_float) : np_float :=
  let sz := length a in
  let part := merge_sort fle a in
  let index := (sz / 2)%nat in
  let middle :=
    if Nat.odd sz then take 1 (drop index part)
    else take 2 (drop (index - 1) part) in
  if existsb isnan a then NaN else np_mean middle.

Definition todense_row (n : nat) (entries : list (nat * np_float)) : list np_float :=
  (λ j, fl_sum A ((filter (λ e : nat * np_float, e.1 = j) entries).*2)) <$> seq 0 n.

Definition todense (M : matrix) : list (list np_float) :=
  match M with
  | Dense _ r => r
  | Csr n r => todense_row n <$> r
  end.

Definition sum1 (M : matrix) : list np_float :=
  match M with
  | Dense _ r => fl_sum A <$> r
  | Csr _ r => (λ entries : list (nat * np_float), fl_sum A entries.*2) <$> r
  end.

Definition gt_rows (M : matrix) (t : list np_float) : list (list bool) :=
  zip_with (λ (row : list np_float) ti, (λ x, fgtb x ti) <$> row) (todense M) t.

Definition dense_row_div (r : list (list np_float)) (counts : list np_float)
  : list (list np_float) :=
  zip_with (λ (row : list np_float) c, (λ x, fl_div A x c) <$> row) r counts.

Definition inplace_row_scale (r : list (list (nat * np_float))) (scale : list np_float)
  : list (list (nat * np_float)) :=
  zip_with (λ (entries : list (nat * np_float)) s,
              (λ e : nat * np_float, (e.1, fl_mul A e.2 s)) <$> entries) r scale.

Definition resolve_after (counts : list np_float) (after : option np_float)
    (cell_subset : option (list bool)) : np_float :=
  match after with
  | Some a => a
  | None =>
      match cell_subset with
      | Some m => np_median (mask_select m counts)
      | None => np_median counts
      end
  end.

Definition divide_counts (counts : list np_float) (after : np_float)
    (cell_subset : option (list bool)) : list np_float :=
  match cell_subset with
  | None => (λ c, fl_div A c after) <$> counts
  | Some m => zip_with (λ c (b : bool), if b then fl_div A c after else Fin 1) counts m
  end.

Definition guard (c : np_float) : np_float := fl_add A c (of_bool (feqb c (Fin 0))).

Definition zero_guard (counts : list np_float) : list np_float := guard <$> counts.

Definition divisors (counts : list np_float) (after : option np_float)
    (cell_subset : option (list bool)) : list np_float :=
  zero_guard (divide_counts counts (resolve_after counts after cell_subset) cell_subset).

Definition row_scale (X : matrix) (counts : list np_float) : matrix :=
  match X with
  | Csr n r => Csr n (inplace_row_scale r ((λ c, fl_div A (Fin 1) c) <$> counts))
  | Dense n r => Dense n (dense_row_div r counts)
  end.

Definition _normalize_data (X : matrix) (counts : list np_float)
    (after : option np_float) (cell_subset : option (list bool)) (copy : bool)
  : option matrix * matrix :=
  let counts := divisors counts after cell_subset in
  let scaled := row_scale X counts in
  let local_X := if issparse X then None else Some scaled in
  (if copy then local_X else None, if copy then X else scaled).

Definition gene_subset_of (M : matrix) (quantile : np_float) : list bool :=
  let counts_per_cell := sum1 M in
  let over := gt_rows M ((λ c, fl_mul A c quantile) <$> counts_per_cell) in
  (λ k, bool_decide (k = 0%nat)) <$> sum0 (n_vars M) over.

Definition gene_subset (M : matrix) (quantile : np_float) : option (list bool) :=
  if fltb quantile (Fin 1) then Some (gene_subset_of M quantile) else None.

Definition masked_sums (g : option (list bool)) (M : matrix) : list np_float :=
  match g with
  | None => sum1 M
  | Some g => sum1 (col_slice g M)
  end.

Definition counts_per_cell (M : matrix) (quantile : np_float) : list np_float :=
  masked_sums (gene_subset M quantile) M.

Definition layer_after (layer_norm : option string) (cell_sum_after : option np_float)
    (counts : list np_float) (subset : list bool) : exn + option np_float :=
  match layer_norm with
  | None => inr None
  | Some s =>
      if decide (s = "after") then inr cell_sum_after
      else if decide (s = "X") then inr (Some (np_median (mask_select subset counts)))
      else inl (ValueError layer_norm_message)
  end.

Fixpoint normalize_layers (names : list string) (after : option np_float)
    (inplace : bool) (data : AnnData) (dat : dat_t) : (exn + dat_t) * AnnData :=
  match names with
  | [] => (inr dat, data)
  | layer :: rest =>
      match layers data !! layer with
      | None => (inl (KeyError layer), data)
      | Some L =>
          let counts := sum1 L in
          let '(ret, L') := _normalize_data L counts after None (negb inplace) in
          normalize_layers rest after inplace
            (mkAnnData (X data) (<[layer := L']> (layers data)) (obs data))
            (if inplace then dat else <[layer := ret]> dat)
      end
  end.

Definition normalize_quantile (data : AnnData) (cell_sum_after : option np_float)
    (quantile : np_float) (min_counts : np_float) (key_n_counts : option string)
    (inplace : bool) (layers_ : layers_arg) (layer_norm : option string)
  : (exn + option dat_t) * AnnData :=
  if fltb quantile (Fin 0) || fgtb quantile (Fin 1) then
    (inl (ValueError "Choose quantile between 0 and 1."), data)
  else
    let counts := counts_per_cell (X data) quantile in
    match store_counts data key_n_counts counts with
    | inl e => (inl e, data)
    | inr data =>
        let subset := cell_subset counts min_counts in
        match layer_after layer_norm cell_sum_after counts subset with
        | inl e => (inl e, data)
        | inr after =>
            let '(ret, X') :=
              _normalize_data (X data) counts cell_sum_after (Some subset) (negb inplace) in
            let data1 := mkAnnData X' (layers data) (obs data) in
            let dat : dat_t := if inplace then ∅ else {[ "X" := ret ]} in
            match normalize_layers (selected_layers data layers_) after inplace data1 dat with
            | (inl e, data2) => (inl e, data2)
            | (inr dat', data2) => (inr (if inplace then None else Some dat'), data2)
            end
        end
    end.

Definition normalize_total (data : AnnData) (cell_sum_after : option np_float)
    (counts_per_cell : option (list np_float)) (key_n_counts : option string)
    (inplace : bool) (layers_ : layers_arg) (layer_norm : option string)
    (min_counts : np_float) : (exn + option dat_t) * AnnData :=
  normalize_quantile data cell_sum_after (Fin 1) min_counts key_n_counts inplace
    layers_ layer_norm.

(** The four definitions that follow are not functions of the source; the
    statements about the scaling are written with them. *)

(** What the scaling does to one value of a row with divisor [d]: the dense
    branch divides by [d], the sparse branch multiplies by [1/d]. *)
Definition scale_value (M : matrix) (d : np_float) (x : np_float) : np_float :=
  if issparse M then fl_mul A x (fl_div A (Fin 1) d) else fl_div A x d.

(** The divisor of a row with sum [c] scaled towards the target [t], with
    no mask: the quotient [c / t], plus 1 when the quotient is zero (and
    plus 0 when it is not). *)
Definition row_divisor (t c : np_float) : np_float :=
  let q := fl_div A c t in
  fl_add A q (if feqb q (Fin 0) then Fin 1 else Fin 0).

(** The target total of a layer [L] handed the target [after]: [after]
    itself, or the median of the row sums of [L] when there is none. *)
Definition layer_target (after : option np_float) (L : matrix) : np_float :=
  match after with
  | Some a => a
  | None => np_median (sum1 L)
  end.

(** A layer scaled towards [after]: each row divided by its divisor. *)
Definition scaled_layer (after : option np_float) (L : matrix) : matrix :=
  row_scale L (row_divisor (layer_target after L) <$> sum1 L).

End WithArithmetic.
End Generic.

(** Row [i] of a matrix as the (column, value) pairs it holds: every column
    of a dense row, the stored entries of a sparse row. *)
Definition entries (M : matrix) (i : nat) : option (list (nat * np_float)) :=
  match M with
  | Dense _ r => imap (λ (j : nat) (x : np_float), (j, x)) <$> r !! i
  | Csr _ r => r !! i
  end.


(** The values row [i] holds in the columns where [mask] holds. *)
Definition kept_values (mask : list bool) (M : matrix) (i : nat)
  : option (list np_float) :=
  (λ es : list (nat * np_float),
     (filter (λ e : nat * np_float, mask !! e.1 = Some true) es).*2) <$> entries M i.

(** One row, given by the pairs it holds, scaled with the divisor [d]. *)
Definition scaled_entries (A : arithmetic) (M : matrix) (d : np_float)
    (es : list (nat * np_float)) : list (nat * np_float) :=
  (λ e : nat * np_float, (e.1, Generic.scale_value A M d e.2)) <$> es.

(** One row scaled towards the target [t] with no mask: the divisor is the
    quotient of the sum of the values of the row and [t], plus 1 when the
    quotient is zero. *)
Definition scaled_row (A : arithmetic) (M : matrix) (t : np_float)
    (es : list (nat * np_float)) : list (nat * np_float) :=
  scaled_entries A M (Generic.row_divisor A t (fl_sum A es.*2)) es.

(** [L'] is [L] with every row scaled towards [t]: the same kind of
    matrix, the same columns, and row by row the scaled values. *)
Definition scaled_towards (A : arithmetic) (t : np_float) (L L' : matrix) : Prop :=
  issparse L' = issparse L ∧ n_vars L' = n_vars L ∧
  ∀ i, entries L' i = scaled_row A L t <$> entries L i.

(** Dividing [x] by one, and multiplying it by the inverse of one, gives
    [x] back. This holds for every number of a floating-point format. *)
Definition unit_laws (A : arithmetic) (x : np_float) : Prop :=
  fl_div A x (Fin 1) = x ∧ fl_mul A x (fl_div A (Fin 1) (Fin 1)) = x.

(** A finite number times zero is zero, and a sum of zeros (or of nothing)
    is zero. Both hold in floating point. *)
Definition zero_laws (A : arithmetic) : Prop :=
  (∀ t, is_finite t → fl_mul A t (Fin 0) = Fin 0) ∧
  (∀ a, Forall (λ x, x = Fin 0) a → fl_sum A a = Fin 0).

(** The decimal 0.7 in a format. *)
Definition quantile_07 (f : format) : np_float := round f (fq 7 10).

(** A row in which the first value is 0.7 times the total. *)
Definition tie_example : matrix := dense_of 2 [[63; 27]]%Z.

(** * Properties *)

(** The first two parts are about the functions in exact arithmetic: what
    they state of errors, of the frame, of the structure of the result and
    of the values 0, 1 and [nan] does not depend on rounding; what they
    state of a row total does, and is marked as a statement of exact
    arithmetic. The last part is about the functions in any arithmetic. *)

(** Closed equations between numbers, matrices and data objects are decided
    by evaluation. *)
Ltac by_evaluation := apply (bool_decide_unpack _); vm_compute; exact I.

(** ** Arithmetic of the extended rationals *)

Lemma Qc_of_nat_nonzero (n : nat) : n ≠ 0%nat → Q2Qc (inject_Z (Z.of_nat n)) ≠ 0.
Proof.
  intros Hn Heq. apply (f_equal this) in Heq. simpl in Heq.
  assert (Hq : (Qred (inject_Z (Z.of_nat n)) == 0)%Q) by (rewrite Heq; reflexivity).
  rewrite Qred_correct in Hq. unfold Qeq in Hq. simpl in Hq. lia.
Qed.

Lemma Qc_one_nonzero : (1 : Qc) ≠ 0.
Proof. discriminate. Qed.

Lemma Qc_one_not_neg : ¬ (1 : Qc) < 0.
Proof. intros H. discriminate H. Qed.

Lemma Qc_zero_lt_one : (0 : Qc) < 1.
Proof. reflexivity. Qed.

Create HintDb np_float discriminated.
#[local] Hint Resolve Qc_one_nonzero Qc_one_not_neg Qc_zero_lt_one : np_float.

Lemma fdiv_one (x : np_float) : fdiv x (Fin 1) = x.
Proof.
  destruct x as [q| | |]; unfold fdiv;
    rewrite ?decide_False by auto with np_float; try reflexivity.
  f_equal. field. auto with np_float.
Qed.

Lemma fmul_inv_one (x : np_float) : fmul x (fdiv (Fin 1) (Fin 1)) = x.
Proof.
  rewrite fdiv_one. destruct x as [q| | |]; unfold fmul, signed_inf;
    rewrite ?decide_True by auto with np_float; try reflexivity.
  f_equal. ring.
Qed.

Lemma fadd_zero_r (x : np_float) : fadd x (Fin 0) = x.
Proof. destruct x as [q| | |]; simpl; try reflexivity. f_equal. ring. Qed.


Lemma guard_not_zero (c : np_float) : c ≠ Fin 0 → guard c = c.
Proof.
  intros Hc. unfold guard.
  assert (feqb c (Fin 0) = false) as ->.
  { destruct c as [q| | |]; simpl; try reflexivity.
    apply bool_decide_eq_false. intros ->. by apply Hc. }
  apply fadd_zero_r.
Qed.



Lemma zero_guard_lookup (counts : list np_float) (i : nat) :
  zero_guard counts !! i = guard <$> counts !! i.
Proof. unfold zero_guard. by rewrite list_lookup_fmap. Qed.

(** ** Sums of finite vectors *)

Lemma np_sum_cons (x : np_float) (a : list np_float) : np_sum (x :: a) = fadd x (np_sum a).
Proof. reflexivity. Qed.

Lemma np_sum_finite (a : list np_float) : Forall is_finite a → np_sum a = Fin (qsum a).
Proof.
  induction 1 as [|x a Hx _ IH]; [reflexivity|].
  rewrite np_sum_cons, IH. destruct x as [q| | |]; try done.
Qed.

Lemma qsum_cons (x : np_float) (a : list np_float) : qsum (x :: a) = to_Qc x + qsum a.
Proof. reflexivity. Qed.

Lemma qsum_scale (k : Qc) (a : list np_float) :
  Forall is_finite a → qsum ((λ x, Fin (to_Qc x * k)) <$> a) = qsum a * k.
Proof.
  induction 1 as [|x a _ _ IH]; [unfold qsum; simpl; ring|].
  rewrite fmap_cons, !qsum_cons, IH. simpl. ring.
Qed.

Lemma np_sum_zeros (a : list np_float) : Forall (λ x, x = Fin 0) a → np_sum a = Fin 0.
Proof.
  induction 1 as [|x a -> _ IH]; [reflexivity|].
  rewrite np_sum_cons, IH. apply fadd_zero_r.
Qed.

Lemma mask_select_fmap {A B} (f : A → B) (mask : list bool) (a : list A) :
  mask_select mask (f <$> a) = f <$> mask_select mask a.
Proof.
  revert a. induction mask as [|b mask IH]; intros [|x a]; simpl; try done.
  destruct b; simpl; by rewrite IH.
Qed.

Lemma mask_select_Forall {A} (P : A → Prop) (mask : list bool) (a : list A) :
  Forall P a → Forall P (mask_select mask a).
Proof.
  intros H. revert mask. induction H as [|x a Hx _ IH]; intros [|b mask]; simpl; try done.
  destruct b; [constructor|]; auto.
Qed.

Lemma mask_select_lookup {A} (mask : list bool) (a : list A) (i : nat) (x : A) :
  mask !! i = Some true → a !! i = Some x → x ∈ mask_select mask a.
Proof.
  revert a i. induction mask as [|b mask IH]; intros [|y a] [|i]; simpl; try done.
  - intros [= ->] [= ->]. left.
  - intros Hm Ha. destruct b; [right|]; eauto.
Qed.

(** Dividing a finite vector by a finite non-zero number divides its sum. *)
Lemma np_sum_div_finite (d : Qc) (a : list np_float) :
  d ≠ 0 → Forall is_finite a →
  np_sum ((λ x, fdiv x (Fin d)) <$> a) = Fin (qsum a / d).
Proof.
  intros Hd Ha.
  assert (Heq : (λ x, fdiv x (Fin d)) <$> a = (λ x, Fin (to_Qc x * / d)) <$> a).
  { apply Forall_fmap_ext_1. eapply Forall_impl; [exact Ha|].
    intros [q| | |] Hq; try done. simpl. by rewrite decide_False. }
  rewrite Heq, np_sum_finite, qsum_scale; [done|done|].
  apply Forall_fmap, Forall_true. done.
Qed.

(** Dividing a finite vector by an infinity gives zeros. *)
Lemma np_sum_div_inf (d : np_float) (a : list np_float) :
  d = PInf ∨ d = NInf → Forall is_finite a →
  np_sum ((λ x, fdiv x d) <$> a) = Fin 0.
Proof.
  intros Hd Ha. apply np_sum_zeros, Forall_fmap.
  eapply Forall_impl; [exact Ha|].
  intros [q| | |] Hq; try done. by destruct Hd as [-> | ->].
Qed.

(** Multiplying a finite vector by a finite number multiplies its sum. *)
Lemma np_sum_mul_finite (k : Qc) (a : list np_float) :
  Forall is_finite a →
  np_sum ((λ x, fmul x (Fin k)) <$> a) = Fin (qsum a * k).
Proof.
  intros Ha.
  assert (Heq : (λ x, fmul x (Fin k)) <$> a = (λ x, Fin (to_Qc x * k)) <$> a).
  { apply Forall_fmap_ext_1. eapply Forall_impl; [exact Ha|].
    intros [q| | |] Hq; done. }
  rewrite Heq, np_sum_finite, qsum_scale; [done|done|].
  apply Forall_fmap, Forall_true. done.
Qed.

(** ** One row, scaled to a target *)

Lemma Qcdiv_nonzero (s a : Qc) : s ≠ 0 → a ≠ 0 → s / a ≠ 0.
Proof.
  intros Hs Ha H. apply Hs.
  transitivity ((s / a) * a); [field; done|]. rewrite H. ring.
Qed.

Lemma signed_inf_nonzero (s : Qc) : s ≠ 0 → signed_inf s = PInf ∨ signed_inf s = NInf.
Proof.
  intros Hs. unfold signed_inf.
  destruct (decide (0 < s)); [by left|].
  destruct (decide (s < 0)); [by right|].
  exfalso. apply Hs. apply Qcle_antisym; by apply Qcnot_lt_le.
Qed.

(** The divisor of an affected row with a finite non-zero sum. *)
Lemma affected_divisor (s a : Qc) :
  s ≠ 0 →
  let d := guard (fdiv (Fin s) (Fin a)) in
  (a ≠ 0 ∧ d = Fin (s / a)) ∨ (a = 0 ∧ (d = PInf ∨ d = NInf)).
Proof.
  intros Hs d. subst d. unfold fdiv.
  destruct (decide (a = 0)) as [->|Ha].
  - right. split; [done|].
    destruct (signed_inf_nonzero s Hs) as [-> | ->]; [left|right]; reflexivity.
  - left. split; [done|]. apply guard_not_zero.
    intros H. apply (f_equal to_Qc) in H. by apply (Qcdiv_nonzero s a).
Qed.

Lemma scaled_row_total (M : matrix) (vals : list np_float) (s a : Qc) :
  Forall is_finite vals → qsum vals = s → s ≠ 0 →
  np_sum (scale_value M (guard (fdiv (Fin s) (Fin a))) <$> vals) = Fin a.
Proof.
  intros Hfin Hsum Hs. unfold scale_value.
  destruct (affected_divisor s a Hs) as [[Ha ->]|[-> Hd]].
  - pose proof (Qcdiv_nonzero s a Hs Ha) as Hsa.
    destruct (issparse M).
    + unfold fdiv at 1. rewrite decide_False by done.
      rewrite np_sum_mul_finite by done. f_equal. rewrite Hsum. by field.
    + rewrite np_sum_div_finite by done. f_equal. rewrite Hsum. by field.
  - destruct (issparse M).
    + assert (fdiv (Fin 1) (guard (fdiv (Fin s) (Fin 0))) = Fin 0) as ->.
      { by destruct Hd as [-> | ->]. }
      rewrite np_sum_mul_finite by done. f_equal. ring.
    + by apply np_sum_div_inf.
Qed.

(** A row whose divisor is one is not changed. *)
Lemma scale_value_one (M : matrix) (x : np_float) : scale_value M (Fin 1) x = x.
Proof.
  unfold scale_value. destruct (issparse M); [apply fmul_inv_one|apply fdiv_one].
Qed.

(** ** Rows of a scaled matrix *)

Lemma masked_sums_lookup (g : option (list bool)) (M : matrix) (i : nat) :
  masked_sums g M !! i = np_sum <$> row_values g M i.
Proof.
  destruct M as [n r|n r], g as [m|]; simpl; rewrite list_lookup_fmap.
  - rewrite list_lookup_fmap. by destruct (r !! i).
  - done.
  - rewrite list_lookup_fmap. destruct (r !! i) as [entries|]; simpl; [|done].
    do 2 f_equal. rewrite <- list_fmap_compose. by apply list_fmap_ext.
  - by destruct (r !! i).
Qed.

Lemma filter_scaled_values (m : list bool) (k : np_float → np_float)
    (entries : list (nat * np_float)) :
  (filter (λ e : nat * np_float, m !! e.1 = Some true)
     ((λ e : nat * np_float, (e.1, k e.2)) <$> entries)).*2
  = k <$> (filter (λ e : nat * np_float, m !! e.1 = Some true) entries).*2.
Proof.
  induction entries as [|[j v] entries IH]; [done|].
  rewrite fmap_cons, !filter_cons. cbn [fst snd].
  destruct (decide (m !! j = Some true)); rewrite ?fmap_cons, IH; done.
Qed.

Lemma row_values_row_scale (g : option (list bool)) (M : matrix)
    (d : list np_float) (i : nat) (di : np_float) (vals : list np_float) :
  d !! i = Some di → row_values g M i = Some vals →
  row_values g (row_scale M d) i = Some (scale_value M di <$> vals).
Proof.
  intros Hd. destruct M as [n r|n r]; unfold scale_value; cbn -[fdiv fmul].
  - unfold dense_row_div. destruct g as [m|]; rewrite lookup_zip_with, Hd;
      destruct (r !! i) as [row|]; cbn -[fdiv fmul]; try done.
    + intros [= <-]. by rewrite mask_select_fmap.
    + by intros [= <-].
  - unfold inplace_row_scale. destruct g as [m|];
      rewrite lookup_zip_with, list_lookup_fmap, Hd;
      destruct (r !! i) as [entries|]; cbn -[fdiv fmul]; try done.
    + intros [= <-]. f_equal.
      apply (filter_scaled_values m (λ x, fmul x (fdiv (Fin 1) di))).
    + intros [= <-]. f_equal. rewrite <- !list_fmap_compose. done.
Qed.

Lemma row_values_finite (g : option (list bool)) (M : matrix) (i : nat)
    (vals : list np_float) :
  finite_matrix M → row_values g M i = Some vals → Forall is_finite vals.
Proof.
  intros HM. destruct M as [n r|n r], g as [m|]; simpl in *;
    destruct (r !! i) as [row|] eqn:Hrow; simpl; try done; intros [= <-];
    pose proof (Forall_lookup_1 _ _ _ _ HM Hrow) as Hfin.
  - by apply mask_select_Forall.
  - done.
  - apply Forall_fmap, Forall_forall. intros e [_ He]%list_elem_of_filter.
    by apply (proj1 (Forall_forall _ _) Hfin).
  - by apply Forall_fmap.
Qed.

(** ** The median of finite numbers is finite *)

Lemma existsb_isnan_finite (a : list np_float) :
  Forall is_finite a → existsb isnan a = false.
Proof.
  induction 1 as [|x a Hx _ IH]; [done|].
  simpl. rewrite IH. by destruct x.
Qed.

Lemma np_mean_finite (a : list np_float) :
  a ≠ [] → Forall is_finite a → is_finite (np_mean a).
Proof.
  intros Hne Hfin. unfold np_mean, fz. rewrite np_sum_finite by done.
  unfold fdiv. rewrite decide_False; [done|].
  apply Qc_of_nat_nonzero. by destruct a.
Qed.

Lemma np_median_finite (a : list np_float) :
  a ≠ [] → Forall is_finite a → is_finite (np_median a).
Proof.
  intros Hne Hfin. unfold np_median. rewrite existsb_isnan_finite by done.
  assert (Hsorted : Forall is_finite (merge_sort fle a)).
  { by rewrite merge_sort_Permutation. }
  assert (Hlen : length (merge_sort fle a) = length a).
  { by rewrite merge_sort_Permutation. }
  assert (Hpos : (0 < length a)%nat) by (destruct a; [done|simpl; lia]).
  apply np_mean_finite.
  - intros Hnil. apply (f_equal length) in Hnil. revert Hnil.
    destruct (Nat.odd (length a)) eqn:Hodd;
      rewrite length_take, length_drop, Hlen; simpl length.
    + pose proof (Nat.div_lt (length a) 2 Hpos). lia.
    + destruct (length a) as [|[|n]] eqn:Hn; [lia|done|].
      pose proof (Nat.div_lt (S (S n)) 2). lia.
  - destruct (Nat.odd (length a)); by apply Forall_take, Forall_drop.
Qed.

(** ** The divisors of [_normalize_data] *)

Lemma divisors_lookup_masked (counts : list np_float) (after : option np_float)
    (subset : list bool) (i : nat) (c : np_float) (b : bool) :
  counts !! i = Some c → subset !! i = Some b →
  divisors counts after (Some subset) !! i
  = Some (guard (if b then fdiv c (resolve_after counts after (Some subset)) else Fin 1)).
Proof.
  intros Hc Hb. unfold divisors, divide_counts.
  by rewrite zero_guard_lookup, lookup_zip_with, Hc, Hb.
Qed.

Lemma divisors_lookup_all (counts : list np_float) (after : option np_float)
    (i : nat) (c : np_float) :
  counts !! i = Some c →
  divisors counts after None !! i
  = Some (guard (fdiv c (resolve_after counts after None))).
Proof.
  intros Hc. unfold divisors, divide_counts.
  by rewrite zero_guard_lookup, list_lookup_fmap, Hc.
Qed.

Lemma cell_subset_lookup (counts : list np_float) (min_counts : np_float) (i : nat) :
  cell_subset counts min_counts !! i = (λ c, fgeb c min_counts) <$> counts !! i.
Proof. unfold cell_subset. by rewrite list_lookup_fmap. Qed.


Lemma masked_sums_finite (g : option (list bool)) (M : matrix) :
  finite_matrix M → Forall is_finite (masked_sums g M).
Proof.
  intros HM. apply Forall_lookup. intros i x Hx.
  rewrite masked_sums_lookup in Hx.
  destruct (row_values g M i) as [vals|] eqn:Hvals; [|done].
  injection Hx as <-. rewrite np_sum_finite; [done|].
  by eapply row_values_finite.
Qed.

(** ** The primitive: return value and storage *)

Lemma _normalize_data_inplace (M : matrix) (counts : list np_float)
    (after : option np_float) (subset : option (list bool)) :
  _normalize_data M counts after subset false
  = (None, row_scale M (divisors counts after subset)).
Proof. reflexivity. Qed.

Lemma _normalize_data_copy_storage (M : matrix) (counts : list np_float)
    (after : option np_float) (subset : option (list bool)) :
  (_normalize_data M counts after subset true).2 = M.
Proof. reflexivity. Qed.

Lemma _normalize_data_copy_dense (n : nat) (r : list (list np_float))
    (counts : list np_float) (after : option np_float) (subset : option (list bool)) :
  (_normalize_data (Dense n r) counts after subset true).1
  = Some (row_scale (Dense n r) (divisors counts after subset)).
Proof. reflexivity. Qed.

Lemma _normalize_data_copy_sparse (n : nat) (r : list (list (nat * np_float)))
    (counts : list np_float) (after : option np_float) (subset : option (list bool)) :
  (_normalize_data (Csr n r) counts after subset true).1 = None.
Proof. reflexivity. Qed.

(** ** The loop over the layers *)

Lemma normalize_layers_X (names : list string) (after : option np_float)
    (inplace : bool) (data : AnnData) (dat : dat_t) :
  X (normalize_layers names after inplace data dat).2 = X data.
Proof.
  revert data dat. induction names as [|layer rest IH]; intros data dat; [done|].
  simpl. destruct (layers data !! layer) as [L|]; [|done].
  by rewrite IH.
Qed.

Lemma normalize_layers_obs (names : list string) (after : option np_float)
    (inplace : bool) (data : AnnData) (dat : dat_t) :
  obs (normalize_layers names after inplace data dat).2 = obs data.
Proof.
  revert data dat. induction names as [|layer rest IH]; intros data dat; [done|].
  simpl. destruct (layers data !! layer) as [L|]; [|done].
  by rewrite IH.
Qed.

(** With [inplace=False] the loop leaves the data object as it was. *)
Lemma normalize_layers_copy_state (names : list string) (after : option np_float)
    (data : AnnData) (dat : dat_t) :
  (normalize_layers names after false data dat).2 = data.
Proof.
  revert dat. induction names as [|layer rest IH]; intros dat; [done|].
  simpl. destruct (layers data !! layer) as [L|] eqn:HL; [|done].
  rewrite insert_id by done. destruct data. apply IH.
Qed.

(** In place, with every selected name present and no name selected twice,
    the loop ends normally and has scaled exactly the selected layers. *)
Lemma normalize_layers_inplace (names : list string) (after : option np_float)
    (data : AnnData) (dat : dat_t) :
  NoDup names → (∀ n, n ∈ names → is_Some (layers data !! n)) →
  ∃ data',
    normalize_layers names after true data dat = (inr dat, data') ∧
    ∀ n, layers data' !! n
         = if decide (n ∈ names) then scaled_layer after <$> layers data !! n
           else layers data !! n.
Proof.
  revert data. induction names as [|layer rest IH]; intros data Hnd Hin.
  - exists data. split; [done|]. intros n. rewrite decide_False; [done|]. apply not_elem_of_nil.
  - apply NoDup_cons in Hnd as [Hnotin Hnd].
    destruct (Hin layer) as [L HL]; [left|].
    simpl. rewrite HL.
    destruct (IH (mkAnnData (X data) (<[layer := scaled_layer after L]> (layers data)) (obs data)) Hnd)
      as (data' & Hrun & Hlook).
    { intros n Hn. simpl. destruct (decide (layer = n)) as [->|Hne].
      - rewrite lookup_insert_eq. eauto.
      - rewrite lookup_insert_ne by done. apply Hin. by right. }
    exists data'. split; [exact Hrun|].
    intros n. rewrite Hlook. simpl.
    destruct (decide (n = layer)) as [->|Hne].
    + rewrite decide_False by done. rewrite decide_True by left.
      by rewrite lookup_insert_eq, HL.
    + rewrite lookup_insert_ne by done.
      destruct (decide (n ∈ rest)) as [Hr|Hr].
      * rewrite decide_True by (by right). done.
      * rewrite decide_False; [done|]. intros [?|?]%elem_of_cons; done.
Qed.

(** ** [normalize_quantile]: what a call that passes the checks leaves *)

Lemma layer_after_valid (layer_norm : option string) (cell_sum_after : option np_float)
    (counts : list np_float) (subset : list bool) :
  valid_layer_norm layer_norm →
  ∃ after, layer_after layer_norm cell_sum_after counts subset = inr after.
Proof. intros [-> | [-> | ->]]; eexists; reflexivity. Qed.

Lemma layer_after_invalid (layer_norm : option string) (cell_sum_after : option np_float)
    (counts : list np_float) (subset : list bool) :
  ¬ valid_layer_norm layer_norm →
  layer_after layer_norm cell_sum_after counts subset = inl (ValueError layer_norm_message).
Proof.
  intros Hbad. unfold layer_after, valid_layer_norm in *.
  destruct layer_norm as [s|]; [|tauto].
  destruct (decide (s = "after")) as [->|_]; [tauto|].
  destruct (decide (s = "X")) as [->|_]; [tauto|done].
Qed.


(** In exact arithmetic a row with a finite non-zero sum, scaled towards a
    finite target by its guarded divisor, sums to the target over the
    selected columns. *)
Lemma scaled_row_reaches_target (g : option (list bool)) (M : matrix)
    (d : list np_float) (i : nat) (s a : Qc) :
  finite_matrix M →
  masked_sums g M !! i = Some (Fin s) → s ≠ 0 →
  d !! i = Some (guard (fdiv (Fin s) (Fin a))) →
  masked_sums g (row_scale M d) !! i = Some (Fin a).
Proof.
  intros HM Hsum Hs Hd. rewrite masked_sums_lookup in Hsum |- *.
  destruct (row_values g M i) as [vals|] eqn:Hvals; [|done].
  pose proof (row_values_finite g M i vals HM Hvals) as Hfin.
  rewrite (row_values_row_scale g M d i _ vals Hd Hvals). simpl. f_equal.
  apply scaled_row_total; [done| |done].
  simpl in Hsum. rewrite np_sum_finite in Hsum by done.
  apply (f_equal (λ o, to_Qc (default NaN o))) in Hsum. exact Hsum.
Qed.

(** ** The primary matrix after an in-place call *)

Section AcceptedCall.

Context (data : AnnData) (cell_sum_after : option np_float).
Context (quantile min_counts : np_float).
Context (layers_ : layers_arg) (layer_norm : option string).

(** The call passes the checks of lines 78 and 117. *)
Hypothesis quantile_ok : quantile_accepted quantile.
Hypothesis layer_norm_ok : valid_layer_norm layer_norm.

Local Abbreviation counts := (counts_per_cell (X data) quantile).
Local Abbreviation subset := (cell_subset (counts_per_cell (X data) quantile) min_counts).
Local Abbreviation final :=
  (normalize_quantile data cell_sum_after quantile min_counts None true
     layers_ layer_norm).2.

Lemma normalize_quantile_inplace_X :
  X final = scaled_X data cell_sum_after quantile min_counts.
Proof.
  unfold normalize_quantile. rewrite quantile_ok. cbn [store_counts].
  destruct (layer_after_valid layer_norm cell_sum_after counts subset layer_norm_ok)
    as [after ->].
  rewrite _normalize_data_inplace.
  match goal with
  | |- context [normalize_layers ?n ?a ?i ?d ?t] =>
      pose proof (normalize_layers_X n a i d t) as HX;
      destruct (normalize_layers n a i d t) as [[e|dat'] data2]
  end; exact HX.
Qed.

(** The divisor of row [i] of the primary matrix. *)
Lemma primary_divisor (i : nat) (c : np_float) :
  counts !! i = Some c →
  divisors counts cell_sum_after (Some subset) !! i
  = Some (guard (if fgeb c min_counts
                 then fdiv c (target_total data cell_sum_after quantile min_counts)
                 else Fin 1)).
Proof.
  intros Hc.
  by rewrite (divisors_lookup_masked _ _ _ _ c (fgeb c min_counts) Hc)
    by (by rewrite cell_subset_lookup, Hc).
Qed.

(** The target total of a call in which some row qualifies is finite. *)
Lemma target_total_finite (i : nat) (c : np_float) :
  finite_matrix (X data) →
  (∀ a, cell_sum_after = Some a → is_finite a) →
  counts !! i = Some c → fgeb c min_counts = true →
  is_finite (target_total data cell_sum_after quantile min_counts).
Proof.
  intros HM Hcsa Hc Hq. unfold target_total, resolve_after.
  destruct cell_sum_after as [a|]; [by apply Hcsa|].
  apply np_median_finite.
  - intros Hnil.
    assert (Hin : c ∈ mask_select subset counts).
    { eapply mask_select_lookup; [|exact Hc]. by rewrite cell_subset_lookup, Hc, <- Hq. }
    rewrite Hnil in Hin. by apply elem_of_nil in Hin.
  - apply mask_select_Forall, masked_sums_finite, HM.
Qed.

(** In exact arithmetic every qualifying row of the primary matrix whose
    row sum (over the columns that pass the quantile filter) is not zero
    sums, over these columns, to the target total after an in-place call. In
    a rounded arithmetic the total is near the target and need not be equal
    to it ([rounded_row_total] below). *)
Theorem normalize_quantile_row_total (i : nat) (s : Qc) :
  finite_matrix (X data) →
  (∀ a, cell_sum_after = Some a → is_finite a) →
  counts !! i = Some (Fin s) → s ≠ 0 →
  fgeb (Fin s) min_counts = true →
  masked_sums (gene_subset (X data) quantile) (X final) !! i
  = Some (target_total data cell_sum_after quantile min_counts).
Proof.
  intros HM Hcsa Hc Hs Hqual.
  rewrite normalize_quantile_inplace_X.
  pose proof (target_total_finite i (Fin s) HM Hcsa Hc Hqual) as Hfin.
  pose proof (primary_divisor i (Fin s) Hc) as Hd. rewrite Hqual in Hd.
  destruct (target_total data cell_sum_after quantile min_counts) as [a| | |];
    try done.
  by apply (scaled_row_reaches_target _ _ _ _ s a).
Qed.



End AcceptedCall.

Lemma normalize_quantile_row_total_witness :
  masked_sums (gene_subset (X quantile_example) (fq 7 10))
    (X (normalize_quantile quantile_example None
          (fq 7 10) (fz 1) None true (LayersList []) None).2) !! 2%nat
  = Some (target_total quantile_example None (fq 7 10) (fz 1)).
Proof.
  apply (normalize_quantile_row_total quantile_example None (fq 7 10) (fz 1)
           (LayersList []) None eq_refl (or_introl eq_refl) 2 (Q2Qc (inject_Z 7))).
  - repeat constructor.
  - intros a Ha. discriminate Ha.
  - by_evaluation.
  - intros H. discriminate H.
  - reflexivity.
Defined.

(** ** The quantile filter *)

Lemma sum0_lookup (n : nat) (B : list (list bool)) (j : nat) :
  (j < n)%nat →
  sum0 n B !! j = Some (length (filter (λ row : list bool, row !! j = Some true) B)).
Proof.
  intros Hj. unfold sum0. rewrite list_lookup_fmap, lookup_seq_lt by done. done.
Qed.





(** C9. [normalize_total] gives the result and the final state of
    [normalize_quantile] called with the shared arguments and [quantile = 1],
    whatever [counts_per_cell] is. *)
Theorem normalize_total_is_quantile_one
    (data : AnnData) (cell_sum_after : option np_float)
    (counts_per_cell counts_per_cell' : option (list np_float))
    (key_n_counts : option string) (inplace : bool) (layers_ : layers_arg)
    (layer_norm : option string) (min_counts : np_float) :
  normalize_total data cell_sum_after counts_per_cell key_n_counts inplace layers_
    layer_norm min_counts
  = normalize_total_spec data cell_sum_after key_n_counts inplace layers_ layer_norm
      min_counts ∧
  normalize_total data cell_sum_after counts_per_cell key_n_counts inplace layers_
    layer_norm min_counts
  = normalize_quantile data cell_sum_after (Fin 1) min_counts key_n_counts inplace
      layers_ layer_norm ∧
  normalize_total data cell_sum_after counts_per_cell key_n_counts inplace layers_
    layer_norm min_counts
  = normalize_total data cell_sum_after counts_per_cell' key_n_counts inplace layers_
      layer_norm min_counts.
Proof. repeat split. Qed.

(** The docstring example of [normalize_total] in exact arithmetic: the row
    sums [1, 3, 11] have median 3 and every row is scaled to total 3; with
    [cell_sum_after = 1] every row is scaled to total 1. *)
Example total_example_default :
  sum1 (X total_example) = [fz 1; fz 3; fz 11] ∧
  target_total total_example None (Fin 1) (fz 1) = fz 3 ∧
  sum1 (X (normalize_total total_example None None None true (LayersList []) None
             (fz 1)).2) = [fz 3; fz 3; fz 3].
Proof. split; [by_evaluation|]. split; by_evaluation. Qed.

Example total_example_after_one :
  sum1 (X (normalize_total total_example (Some (fz 1)) None None true (LayersList [])
             None (fz 1)).2) = [fz 1; fz 1; fz 1].
Proof. by_evaluation. Qed.

(** In exact arithmetic the quantile example stored as a sparse matrix is
    scaled to the same values; in binary64 the sparse branch rounds
    otherwise ([sparse_branch_rounds_twice] below). *)
Example sparse_quantile_example :
  todense (X (normalize_quantile (adata_of sparse_quantile_matrix) None (fq 7 10)
                (fz 1) None true (LayersList []) None).2)
  = [[fz 1; fz 0; fz 1]; [fz 3; fz 0; fz 1]; [fq 5 7; fq 6 7; fq 1 7]].
Proof. by_evaluation. Qed.

(** ** Monotonicity of the quantile filter *)






(** ** Errors of [normalize_quantile] *)

Lemma normalize_quantile_bad_quantile (data : AnnData) (cell_sum_after : option np_float)
    (quantile min_counts : np_float) (key_n_counts : option string) (inplace : bool)
    (layers_ : layers_arg) (layer_norm : option string) :
  fltb quantile (Fin 0) || fgtb quantile (Fin 1) = true →
  normalize_quantile data cell_sum_after quantile min_counts key_n_counts inplace
    layers_ layer_norm
  = (inl (ValueError "Choose quantile between 0 and 1."), data).
Proof. intros Hq. unfold normalize_quantile. by rewrite Hq. Qed.

Lemma normalize_quantile_bad_layer_norm (data : AnnData) (cell_sum_after : option np_float)
    (quantile min_counts : np_float) (inplace : bool)
    (layers_ : layers_arg) (layer_norm : option string) :
  quantile_accepted quantile → ¬ valid_layer_norm layer_norm →
  normalize_quantile data cell_sum_after quantile min_counts None inplace
    layers_ layer_norm
  = (inl (ValueError layer_norm_message), data).
Proof.
  intros Hq Hln. unfold normalize_quantile. rewrite Hq. cbn [store_counts].
  by rewrite layer_after_invalid.
Qed.

(** Whenever a name is given for the row sums, the call stops at line 108
    with [NameError], before the check of [layer_norm] and before any
    scaling. *)
Lemma normalize_quantile_key_raises (data : AnnData) (cell_sum_after : option np_float)
    (quantile min_counts : np_float) (key : string) (inplace : bool)
    (layers_ : layers_arg) (layer_norm : option string) :
  quantile_accepted quantile →
  normalize_quantile data cell_sum_after quantile min_counts (Some key) inplace
    layers_ layer_norm
  = (inl (NameError "adata"), data).
Proof. intros Hq. unfold normalize_quantile. by rewrite Hq. Qed.

(** No call writes the per-row metadata. *)
Lemma normalize_quantile_obs (data : AnnData) (cell_sum_after : option np_float)
    (quantile min_counts : np_float) (key_n_counts : option string) (inplace : bool)
    (layers_ : layers_arg) (layer_norm : option string) :
  obs (normalize_quantile data cell_sum_after quantile min_counts key_n_counts inplace
         layers_ layer_norm).2 = obs data.
Proof.
  unfold normalize_quantile.
  destruct (fltb quantile (Fin 0) || fgtb quantile (Fin 1)); [done|].
  destruct key_n_counts; [done|]. cbn [store_counts].
  destruct (layer_after _ _ _ _) as [e|after]; [done|].
  destruct (_normalize_data _ _ _ _ _) as [ret X'].
  match goal with
  | |- context [normalize_layers ?n ?a ?i ?d ?t] =>
      pose proof (normalize_layers_obs n a i d t) as Hobs;
      destruct (normalize_layers n a i d t) as [[e|dat'] data2]
  end; exact Hobs.
Qed.

(** With [inplace=False] the data object is left as it was. *)
Lemma normalize_quantile_copy_state (data : AnnData) (cell_sum_after : option np_float)
    (quantile min_counts : np_float) (key_n_counts : option string)
    (layers_ : layers_arg) (layer_norm : option string) :
  (normalize_quantile data cell_sum_after quantile min_counts key_n_counts false
     layers_ layer_norm).2 = data.
Proof.
  unfold normalize_quantile.
  destruct (fltb quantile (Fin 0) || fgtb quantile (Fin 1)); [done|].
  destruct key_n_counts; [done|]. cbn [store_counts].
  destruct (layer_after _ _ _ _) as [e|after]; [done|].
  simpl negb. unfold _normalize_data at 1. cbv zeta.
  match goal with
  | |- context [normalize_layers ?n ?a false ?d ?t] =>
      pose proof (normalize_layers_copy_state n a d t) as Hst;
      destruct (normalize_layers n a false d t) as [[e|dat'] data2]
  end; simpl in *; rewrite Hst; by destruct data.
Qed.

Lemma same_row_refl (M : matrix) (i : nat) : same_row M M i.
Proof. by destruct M. Qed.

(** ** Rows below [min_counts] *)

Lemma fltb_not_fgeb (x y : np_float) : fltb x y = true → fgeb x y = false.
Proof.
  destruct x as [a| | |], y as [b| | |]; unfold fgeb, fltb, fleb; try done.
  intros Hlt%bool_decide_eq_true. apply bool_decide_eq_false.
  by apply Qclt_not_le.
Qed.

(** C6 as stated fails for layers: with [min_counts = 2] the first row of the
    layer sums to 1 and is still rescaled, from [1] to [4] (the median of the
    layer's row sums). *)
Lemma layer_row_below_min_counts_rescaled :
  sum1 low_row_layer !! 0%nat = Some (fz 1) ∧
  fltb (fz 1) (fz 2) = true ∧
  ∃ L', layers (normalize_quantile low_row_example None (Fin 1) (fz 2) None true
                  (LayersList ["a"]) None).2 !! "a" = Some L' ∧
        L' = dense_of 1 [[4]; [4]; [4]]%Z ∧
        ¬ same_row low_row_layer L' 0.
Proof.
  split; [by_evaluation|]. split; [reflexivity|].
  exists (dense_of 1 [[4]; [4]; [4]]%Z). split; [by_evaluation|]. split; [done|].
  intros H. vm_compute in H. discriminate H.
Qed.

(** ** Layers *)

(** With [inplace=False] and every selected name present, the loop ends
    normally and returns a copy for each selected layer. *)
Lemma normalize_layers_copy (names : list string) (after : option np_float)
    (data : AnnData) (dat : dat_t) :
  (∀ n, n ∈ names → is_Some (layers data !! n)) →
  ∃ dat',
    normalize_layers names after false data dat = (inr dat', data) ∧
    ∀ n, dat' !! n
         = if decide (n ∈ names) then layer_copy after <$> layers data !! n
           else dat !! n.
Proof.
  revert dat. induction names as [|layer rest IH]; intros dat Hin.
  - exists dat. split; [done|]. intros n. rewrite decide_False; [done|]. apply not_elem_of_nil.
  - destruct (Hin layer) as [L HL]; [left|].
    destruct (IH (<[layer := layer_copy after L]> dat)) as (dat' & Hrun & Hlook).
    { intros n Hn. apply Hin. by right. }
    exists dat'. split.
    + simpl. rewrite HL. rewrite insert_id by done.
      destruct data as [X0 layers0 obs0]. exact Hrun.
    + intros n. rewrite Hlook.
      destruct (decide (n ∈ rest)) as [Hr|Hr].
      * rewrite decide_True by (by right). done.
      * destruct (decide (n = layer)) as [->|Hne].
        -- rewrite decide_True by left. by rewrite lookup_insert_eq, HL.
        -- rewrite lookup_insert_ne by done.
           rewrite decide_False; [done|]. intros [?|?]%elem_of_cons; done.
Qed.

(** Selecting ['all'] selects each existing layer once. *)
Lemma selection_ok_all (data : AnnData) : selection_ok data (LayersStr "all").
Proof.
  unfold selection_ok, selected_layers. rewrite decide_True by done. split.
  - apply NoDup_fst_map_to_list.
  - intros n [[n' L] [-> Hin]]%list_elem_of_fmap.
    apply elem_of_map_to_list in Hin. simpl. eauto.
Qed.

(** An in-place call that passes the checks, on a good selection, ends
    normally, has scaled the primary matrix and exactly the selected layers,
    and returns nothing. *)
Lemma normalize_quantile_inplace_ok (data : AnnData) (cell_sum_after : option np_float)
    (quantile min_counts : np_float) (layers_ : layers_arg) (layer_norm : option string)
    (after : option np_float) :
  quantile_accepted quantile →
  layer_after layer_norm cell_sum_after (counts_per_cell (X data) quantile)
    (cell_subset (counts_per_cell (X data) quantile) min_counts) = inr after →
  selection_ok data layers_ →
  ∃ data',
    normalize_quantile data cell_sum_after quantile min_counts None true layers_ layer_norm
    = (inr None, data') ∧
    X data' = scaled_X data cell_sum_after quantile min_counts ∧
    obs data' = obs data ∧
    ∀ n, layers data' !! n
         = if decide (n ∈ selected_layers data layers_)
           then scaled_layer after <$> layers data !! n
           else layers data !! n.
Proof.
  intros Hq Hafter [Hnd Hin]. unfold normalize_quantile. rewrite Hq.
  cbn [store_counts]. rewrite Hafter.
  rewrite _normalize_data_inplace.
  match goal with
  | |- context [normalize_layers ?n ?a true ?d ?t] =>
      destruct (normalize_layers_inplace n a d t Hnd) as (data' & Hrun & Hlook);
        [exact Hin|];
      pose proof (normalize_layers_X n a true d t) as HX;
      pose proof (normalize_layers_obs n a true d t) as Hobs;
      rewrite Hrun in HX, Hobs |- *
  end.
  exists data'. done.
Qed.

(** A call with [inplace=False] that passes the checks, on a selection of
    existing layers, ends normally, leaves the data object as it was and
    returns a mapping with the copy of each selected layer. *)
Lemma normalize_quantile_copy_ok (data : AnnData) (cell_sum_after : option np_float)
    (quantile min_counts : np_float) (layers_ : layers_arg) (layer_norm : option string)
    (after : option np_float) :
  quantile_accepted quantile →
  layer_after layer_norm cell_sum_after (counts_per_cell (X data) quantile)
    (cell_subset (counts_per_cell (X data) quantile) min_counts) = inr after →
  (∀ n, n ∈ selected_layers data layers_ → is_Some (layers data !! n)) →
  ∃ dat' : dat_t,
    normalize_quantile data cell_sum_after quantile min_counts None false layers_ layer_norm
    = (inr (Some dat'), data) ∧
    ∀ n, n ∈ selected_layers data layers_ →
         dat' !! n = layer_copy after <$> layers data !! n.
Proof.
  intros Hq Hafter Hin. unfold normalize_quantile. rewrite Hq.
  cbn [store_counts]. rewrite Hafter.
  simpl negb. unfold _normalize_data at 1. cbv zeta.
  match goal with
  | |- context [normalize_layers ?n ?a false ?d ?t] =>
      destruct (normalize_layers_copy n a d t) as (dat' & Hrun & Hlook);
        [exact Hin|]
  end.
  exists dat'. simpl in Hrun |- *. rewrite Hrun. split.
  - by destruct data.
  - intros n Hn. rewrite Hlook. by rewrite decide_True.
Qed.

(** The target total of a layer with a row and finite entries is finite. *)
Lemma layer_target_finite (cell_sum_after : option np_float) (L : matrix)
    (i : nat) (c : np_float) :
  finite_matrix L → (∀ a, cell_sum_after = Some a → is_finite a) →
  sum1 L !! i = Some c →
  is_finite (layer_target cell_sum_after L).
Proof.
  intros HL Hcsa Hc. unfold layer_target, resolve_after.
  destruct cell_sum_after as [a|]; [by apply Hcsa|].
  apply np_median_finite.
  - intros Hnil. by rewrite Hnil in Hc.
  - apply (masked_sums_finite None L HL).
Qed.

(** In exact arithmetic each row of a scaled layer whose sum was not zero
    sums to the target. *)
Lemma scaled_layer_row_total (cell_sum_after : option np_float) (L : matrix)
    (i : nat) (s : Qc) :
  finite_matrix L → (∀ a, cell_sum_after = Some a → is_finite a) →
  sum1 L !! i = Some (Fin s) → s ≠ 0 →
  sum1 (scaled_layer cell_sum_after L) !! i = Some (layer_target cell_sum_after L).
Proof.
  intros HL Hcsa Hc Hs.
  pose proof (layer_target_finite cell_sum_after L i (Fin s) HL Hcsa Hc) as Hfin.
  destruct (layer_target cell_sum_after L) as [a| | |] eqn:Ha; try done.
  unfold scaled_layer.
  apply (scaled_row_reaches_target None L _ i s a); try done.
  rewrite (divisors_lookup_all _ _ _ _ Hc). unfold layer_target in Ha. by rewrite Ha.
Qed.


(** ** The zero guard *)



(** C7. The guard replaces a divisor that is zero, but zero divided by a
    zero target is [nan], which the guard lets through: scaling the all-zero
    row [[0]] with divisor [0] and no explicit target (the median is 0)
    leaves [[nan]], not [[0]]. A default call reaches this through a
    selected layer: the layer [[0],[0],[1]] is left as [[nan],[nan],[0]]. *)
Theorem zero_row_becomes_nan :
  resolve_after [fz 0] None None = fz 0 ∧
  divisors [fz 0] None None = [NaN] ∧
  _normalize_data (dense_of 1 [[0]]%Z) [fz 0] None None false
  = (None, Dense 1 [[NaN]]) ∧
  normalize_quantile empty_rows_example None (Fin 1) (fz 1) None true
    (LayersList ["a"]) None
  = (inr None,
     mkAnnData (dense_of 1 [[2]; [2]; [2]]%Z)
       {[ "a" := Dense 1 [[NaN]; [NaN]; [fz 0]] ]} ∅).
Proof. split; [by_evaluation|]. split; [by_evaluation|]. split; by_evaluation. Qed.

(** C1. With [min_counts = 0] the two empty rows of [[0],[0],[1]] qualify,
    the target total is the median 0 of the row sums, and the call turns the
    empty rows into [nan] instead of leaving them zero. *)
Theorem zero_sum_rows_become_nan :
  counts_per_cell (X zero_rows_example) (Fin 1) = [fz 0; fz 0; fz 1] ∧
  cell_subset [fz 0; fz 0; fz 1] (fz 0) = [true; true; true] ∧
  target_total zero_rows_example None (Fin 1) (fz 0) = fz 0 ∧
  normalize_quantile zero_rows_example None (Fin 1) (fz 0) None true (LayersList []) None
  = (inr None, adata_of (Dense 1 [[NaN]; [NaN]; [fz 0]])).
Proof. split; [by_evaluation|]. split; [reflexivity|]. split; by_evaluation. Qed.

(** C3. On a sparse matrix the primitive called with [copy=True] leaves the
    original as it was but returns [None] instead of the scaled copy, and
    [normalize_quantile] with [inplace=False] returns the mapping
    [{'X': None}]. *)
Theorem sparse_copy_returns_none :
  _normalize_data sparse_example [fz 1; fz 3] None None true = (None, sparse_example) ∧
  normalize_quantile (adata_of sparse_example) None (Fin 1) (fz 1) None false
    (LayersList []) None
  = (inr (Some {[ "X" := None ]}), adata_of sparse_example).
Proof. split; by_evaluation. Qed.

(** C4. A call that names the field for the row sums raises [NameError] at
    line 108 and stores nothing; the default call of [normalize_total] on
    [[1,0],[3,0],[5,6]] has no field name and stores nothing either. *)
Theorem key_n_counts_raises_name_error :
  normalize_quantile total_example None (Fin 1) (fz 1) (Some "n_counts") true
    (LayersList []) None
  = (inl (NameError "adata"), total_example) ∧
  counts_per_cell (X total_example) (Fin 1) = [fz 1; fz 3; fz 11] ∧
  obs (normalize_total total_example None None None true (LayersList []) None (fz 1)).2
  = ∅.
Proof. split; [by_evaluation|]. split; by_evaluation. Qed.

(** C8, amended. A quantile outside [0, 1] raises [ValueError], whatever the
    other arguments; in a call without a field name for the row sums, a
    [layer_norm] that is not one of the three values raises [ValueError]. In
    both cases the data object (primary matrix, layers, metadata) is left as
    it was. *)
Theorem invalid_arguments_raise_value_error
    (data : AnnData) (cell_sum_after : option np_float)
    (quantile min_counts : np_float) (key_n_counts : option string) (inplace : bool)
    (layers_ : layers_arg) (layer_norm : option string) :
  (fltb quantile (Fin 0) || fgtb quantile (Fin 1) = true →
   normalize_quantile data cell_sum_after quantile min_counts key_n_counts inplace
     layers_ layer_norm
   = (inl (ValueError "Choose quantile between 0 and 1."), data)) ∧
  (quantile_accepted quantile → ¬ valid_layer_norm layer_norm →
   normalize_quantile data cell_sum_after quantile min_counts None inplace
     layers_ layer_norm
   = (inl (ValueError layer_norm_message), data)).
Proof.
  split.
  - apply normalize_quantile_bad_quantile.
  - apply normalize_quantile_bad_layer_norm.
Qed.

Lemma invalid_arguments_raise_value_error_witness :
  normalize_quantile low_row_example None (fq 3 2) (fz 1) (Some "n_counts") true
    (LayersList ["a"]) None
  = (inl (ValueError "Choose quantile between 0 and 1."), low_row_example) ∧
  normalize_quantile low_row_example None (Fin 1) (fz 1) None true
    (LayersList ["a"]) (Some "bad")
  = (inl (ValueError layer_norm_message), low_row_example).
Proof.
  split.
  - apply (proj1 (invalid_arguments_raise_value_error low_row_example None (fq 3 2)
                    (fz 1) (Some "n_counts") true (LayersList ["a"]) None)).
    reflexivity.
  - apply (proj2 (invalid_arguments_raise_value_error low_row_example None (Fin 1)
                    (fz 1) None true (LayersList ["a"]) (Some "bad"))).
    + reflexivity.
    + intros [H | [H | H]]; discriminate H.
Defined.

(** C8 as stated fails when a field name for the row sums is given: line 108
    comes before the check of [layer_norm] at line 117, and the call with
    [layer_norm = 'bad'] ends in [NameError], not in [ValueError]. *)
Lemma bad_layer_norm_with_key_not_value_error :
  ¬ valid_layer_norm (Some "bad") ∧
  normalize_quantile total_example None (Fin 1) (fz 1) (Some "n_counts") true
    (LayersList []) (Some "bad")
  = (inl (NameError "adata"), total_example) ∧
  ∀ msg, (normalize_quantile total_example None (Fin 1) (fz 1) (Some "n_counts") true
            (LayersList []) (Some "bad")).1 ≠ inl (ValueError msg).
Proof.
  split; [|split].
  - intros [H | [H | H]]; discriminate H.
  - by_evaluation.
  - intros msg H. vm_compute in H. discriminate H.
Qed.

(** * Further properties of the three functions *)

(** ** Shape and sparsity pattern *)

Lemma divisors_length (counts : list np_float) (after : option np_float) :
  length (divisors counts after None) = length counts.
Proof. unfold divisors, zero_guard, divide_counts. by rewrite !length_fmap. Qed.

Lemma divisors_length_masked (counts : list np_float) (after : option np_float)
    (min_counts : np_float) :
  length (divisors counts after (Some (cell_subset counts min_counts))) = length counts.
Proof.
  unfold divisors, zero_guard, divide_counts, cell_subset.
  rewrite length_fmap, length_zip_with, length_fmap. lia.
Qed.

Lemma sum1_length (M : matrix) : length (sum1 M) = length (todense M).
Proof. destruct M; simpl; by rewrite !length_fmap. Qed.

Lemma zip_with_fmap_keep {A B C} (f : A → B → A) (g : A → C) (l : list A) (k : list B) :
  (∀ x y, g (f x y) = g x) → (length l ≤ length k)%nat →
  g <$> zip_with f l k = g <$> l.
Proof.
  intros Hg. revert k. induction l as [|x l IH]; intros [|y k] Hlen; simpl in *;
    try done; try lia.
  rewrite Hg, IH by lia. done.
Qed.

Lemma row_scale_pattern (M : matrix) (d : list np_float) :
  (length (todense M) ≤ length d)%nat →
  storage_pattern (row_scale M d) = storage_pattern M.
Proof.
  destruct M as [n r|n r]; simpl; intros Hlen; f_equal.
  - unfold dense_row_div. apply zip_with_fmap_keep; [|done].
    intros row c. by rewrite length_fmap.
  - unfold inplace_row_scale. apply zip_with_fmap_keep.
    + intros entries c. rewrite <- list_fmap_compose. by apply list_fmap_ext.
    + by rewrite !length_fmap in *.
Qed.

Lemma scaled_layer_pattern (after : option np_float) (L : matrix) :
  storage_pattern (scaled_layer after L) = storage_pattern L.
Proof.
  apply row_scale_pattern. by rewrite divisors_length, sum1_length.
Qed.

Lemma scaled_X_pattern (data : AnnData) (cell_sum_after : option np_float)
    (quantile min_counts : np_float) :
  storage_pattern (scaled_X data cell_sum_after quantile min_counts)
  = storage_pattern (X data).
Proof.
  unfold scaled_X. apply row_scale_pattern. rewrite divisors_length_masked.
  unfold counts_per_cell, masked_sums.
  destruct (gene_subset (X data) quantile) as [g|].
  - destruct (X data) as [n r|n r]; simpl; by rewrite !length_fmap.
  - by rewrite sum1_length.
Qed.

(** ** The loop over the layers, for any selection *)

(** What one turn of the loop leaves in the layer it visits. *)
Lemma layer_step (L : matrix) (after : option np_float) (inplace : bool) :
  _normalize_data L (sum1 L) after None (negb inplace)
  = (if inplace then None else layer_copy after L,
     if inplace then scaled_layer after L else L).
Proof. by destruct inplace. Qed.

Lemma layer_step_pattern (L : matrix) (after : option np_float) (inplace : bool) :
  storage_pattern (if inplace then scaled_layer after L else L) = storage_pattern L.
Proof. destruct inplace; [apply scaled_layer_pattern|done]. Qed.

Lemma normalize_layers_cons (layer : string) (rest : list string)
    (after : option np_float) (inplace : bool) (data : AnnData) (dat : dat_t) (L : matrix) :
  layers data !! layer = Some L →
  normalize_layers (layer :: rest) after inplace data dat
  = normalize_layers rest after inplace
      (mkAnnData (X data)
         (<[layer := if inplace then scaled_layer after L else L]> (layers data))
         (obs data))
      (if inplace then dat else <[layer := layer_copy after L]> dat).
Proof.
  intros HL. cbn [normalize_layers]. rewrite HL, layer_step. by destruct inplace.
Qed.

Lemma normalize_layers_missing (layer : string) (rest : list string)
    (after : option np_float) (inplace : bool) (data : AnnData) (dat : dat_t) :
  layers data !! layer = None →
  normalize_layers (layer :: rest) after inplace data dat = (inl (KeyError layer), data).
Proof. intros HL. cbn [normalize_layers]. by rewrite HL. Qed.

(** Layers that are not selected are not touched. *)
Lemma normalize_layers_frame (names : list string) (after : option np_float)
    (inplace : bool) (data : AnnData) (dat : dat_t) (n : string) :
  n ∉ names →
  layers (normalize_layers names after inplace data dat).2 !! n = layers data !! n.
Proof.
  revert data dat. induction names as [|layer rest IH]; intros data dat Hn; [done|].
  apply not_elem_of_cons in Hn as [Hne Hn].
  destruct (layers data !! layer) as [L|] eqn:HL.
  - rewrite (normalize_layers_cons _ _ _ _ _ _ L HL), IH by done.
    simpl. by rewrite lookup_insert_ne.
  - by rewrite normalize_layers_missing.
Qed.

(** The loop keeps the set of layers and the storage pattern of each. *)
Lemma normalize_layers_pattern (names : list string) (after : option np_float)
    (inplace : bool) (data : AnnData) (dat : dat_t) (n : string) :
  storage_pattern <$> layers (normalize_layers names after inplace data dat).2 !! n
  = storage_pattern <$> layers data !! n.
Proof.
  revert data dat. induction names as [|layer rest IH]; intros data dat; [done|].
  destruct (layers data !! layer) as [L|] eqn:HL.
  - rewrite (normalize_layers_cons _ _ _ _ _ _ L HL), IH. simpl.
    destruct (decide (layer = n)) as [->|Hne].
    + rewrite lookup_insert_eq, HL. simpl. f_equal. apply layer_step_pattern.
    + by rewrite lookup_insert_ne.
  - by rewrite normalize_layers_missing.
Qed.

(** The first missing name is the same after the loop has visited some
    layers: a visit replaces a layer, it neither adds nor removes one. *)
Lemma first_missing_insert (data : AnnData) (layer : string) (L L' : matrix)
    (names : list string) :
  layers data !! layer = Some L →
  first_missing (mkAnnData (X data) (<[layer := L']> (layers data)) (obs data)) names
  = first_missing data names.
Proof.
  intros HL. unfold first_missing. f_equal. apply list_filter_iff.
  intros n. simpl. destruct (decide (layer = n)) as [->|Hne].
  - rewrite lookup_insert_eq, HL. done.
  - by rewrite lookup_insert_ne.
Qed.

Lemma first_missing_cons_present (data : AnnData) (layer : string) (L : matrix)
    (rest : list string) :
  layers data !! layer = Some L →
  first_missing data (layer :: rest) = first_missing data rest.
Proof.
  intros HL. unfold first_missing. rewrite filter_cons_False; [done|].
  by rewrite HL.
Qed.

Lemma first_missing_cons_absent (data : AnnData) (layer : string) (rest : list string) :
  layers data !! layer = None →
  first_missing data (layer :: rest) = Some layer.
Proof.
  intros HL. unfold first_missing. by rewrite filter_cons_True.
Qed.

(** The loop fails exactly at the first missing name. *)
Lemma normalize_layers_outcome (names : list string) (after : option np_float)
    (inplace : bool) (data : AnnData) (dat : dat_t) :
  match first_missing data names with
  | Some n => (normalize_layers names after inplace data dat).1 = inl (KeyError n)
  | None => ∃ dat', (normalize_layers names after inplace data dat).1 = inr dat'
  end.
Proof.
  revert data dat. induction names as [|layer rest IH]; intros data dat.
  - simpl. eauto.
  - destruct (layers data !! layer) as [L|] eqn:HL.
    + rewrite (normalize_layers_cons _ _ _ _ _ _ L HL).
      rewrite (first_missing_cons_present _ _ L) by done.
      rewrite <- (first_missing_insert data layer L
                    (if inplace then scaled_layer after L else L) rest HL).
      apply IH.
    + rewrite first_missing_cons_absent, normalize_layers_missing by done. done.
Qed.

(** ** Calls of [normalize_quantile], whatever their arguments *)

(** A call that passes the three checks scales the primary matrix (or a
    copy of it) and enters the loop over the layers. *)
Lemma normalize_quantile_run (data : AnnData) (cell_sum_after : option np_float)
    (quantile min_counts : np_float) (inplace : bool) (layers_ : layers_arg)
    (layer_norm : option string) (after : option np_float) :
  quantile_accepted quantile →
  layer_after layer_norm cell_sum_after (counts_per_cell (X data) quantile)
    (cell_subset (counts_per_cell (X data) quantile) min_counts) = inr after →
  normalize_quantile data cell_sum_after quantile min_counts None inplace layers_ layer_norm
  = match
      normalize_layers (selected_layers data layers_) after inplace
        (mkAnnData
           (if inplace then scaled_X data cell_sum_after quantile min_counts else X data)
           (layers data) (obs data))
        (if inplace then ∅
         else {[ "X" := if issparse (X data) then None
                        else Some (scaled_X data cell_sum_after quantile min_counts) ]})
    with
    | (inl e, data2) => (inl e, data2)
    | (inr dat', data2) => (inr (if inplace then None else Some dat'), data2)
    end.
Proof.
  intros Hq Hafter. unfold normalize_quantile. rewrite Hq. cbn [store_counts].
  rewrite Hafter. by destruct inplace.
Qed.

(** The data object after a call: as it was, or as the loop over the layers
    leaves it. *)
Lemma normalize_quantile_state (data : AnnData) (cell_sum_after : option np_float)
    (quantile min_counts : np_float) (key_n_counts : option string) (inplace : bool)
    (layers_ : layers_arg) (layer_norm : option string) :
  (normalize_quantile data cell_sum_after quantile min_counts key_n_counts inplace
     layers_ layer_norm).2 = data ∨
  ∃ after dat,
    (normalize_quantile data cell_sum_after quantile min_counts key_n_counts inplace
       layers_ layer_norm).2
    = (normalize_layers (selected_layers data layers_) after inplace
         (mkAnnData
            (if inplace then scaled_X data cell_sum_after quantile min_counts else X data)
            (layers data) (obs data)) dat).2.
Proof.
  destruct (fltb quantile (Fin 0) || fgtb quantile (Fin 1)) eqn:Hq.
  { left. by rewrite normalize_quantile_bad_quantile. }
  destruct key_n_counts as [key|].
  { left. by rewrite normalize_quantile_key_raises. }
  destruct (layer_after layer_norm cell_sum_after (counts_per_cell (X data) quantile)
              (cell_subset (counts_per_cell (X data) quantile) min_counts))
    as [e|after] eqn:Hafter.
  { left. unfold normalize_quantile. rewrite Hq. cbn [store_counts]. by rewrite Hafter. }
  right. rewrite (normalize_quantile_run _ _ _ _ _ _ _ after Hq Hafter).
  match goal with
  | |- context [normalize_layers ?n ?a ?i ?d ?t] =>
      exists a, t; by destruct (normalize_layers n a i d t) as [[e|dat'] data2]
  end.
Qed.

(** X1. No call changes the shape, the storage kind or the sparsity pattern
    of a matrix, and no call adds or removes a layer: the primary matrix and
    every layer keep the kind (dense or sparse), the number of columns and,
    row by row, the columns that hold a value. *)
Theorem normalize_quantile_keeps_pattern
    (data : AnnData) (cell_sum_after : option np_float)
    (quantile min_counts : np_float) (key_n_counts : option string) (inplace : bool)
    (layers_ : layers_arg) (layer_norm : option string) :
  storage_pattern
    (X (normalize_quantile data cell_sum_after quantile min_counts key_n_counts
          inplace layers_ layer_norm).2) = storage_pattern (X data) ∧
  ∀ n, storage_pattern <$>
         layers (normalize_quantile data cell_sum_after quantile min_counts
                   key_n_counts inplace layers_ layer_norm).2 !! n
       = storage_pattern <$> layers data !! n.
Proof.
  destruct (normalize_quantile_state data cell_sum_after quantile min_counts
              key_n_counts inplace layers_ layer_norm) as [-> | (after & dat & ->)];
    [done|].
  split.
  - rewrite normalize_layers_X. simpl.
    destruct inplace; [apply scaled_X_pattern|done].
  - intros n. by rewrite normalize_layers_pattern.
Qed.

(** X2. No call writes the per-row metadata, and no call touches a layer
    that is not selected. *)
Theorem normalize_quantile_frame
    (data : AnnData) (cell_sum_after : option np_float)
    (quantile min_counts : np_float) (key_n_counts : option string) (inplace : bool)
    (layers_ : layers_arg) (layer_norm : option string) :
  obs (normalize_quantile data cell_sum_after quantile min_counts key_n_counts
         inplace layers_ layer_norm).2 = obs data ∧
  ∀ n, n ∉ selected_layers data layers_ →
       layers (normalize_quantile data cell_sum_after quantile min_counts
                 key_n_counts inplace layers_ layer_norm).2 !! n
       = layers data !! n.
Proof.
  destruct (normalize_quantile_state data cell_sum_after quantile min_counts
              key_n_counts inplace layers_ layer_norm) as [-> | (after & dat & ->)];
    [done|].
  split.
  - by rewrite normalize_layers_obs.
  - intros n Hn. by rewrite normalize_layers_frame.
Qed.

(** X3. Which error a call raises, and when it returns: the checks come in
    the order quantile, field name for the row sums, [layer_norm], selected
    layers; the first that fails decides the error, a missing layer is
    reported by [KeyError] with the first missing name, and a call that
    passes all of them returns [None] in place and a mapping otherwise. *)
Theorem normalize_quantile_outcome
    (data : AnnData) (cell_sum_after : option np_float)
    (quantile min_counts : np_float) (key_n_counts : option string) (inplace : bool)
    (layers_ : layers_arg) (layer_norm : option string) :
  match expected_error data quantile key_n_counts layers_ layer_norm with
  | Some e =>
      (normalize_quantile data cell_sum_after quantile min_counts key_n_counts
         inplace layers_ layer_norm).1 = inl e
  | None =>
      ∃ r, (normalize_quantile data cell_sum_after quantile min_counts key_n_counts
              inplace layers_ layer_norm).1 = inr r ∧
           (r = None ↔ inplace = true)
  end.
Proof.
  unfold expected_error.
  destruct (fltb quantile (Fin 0) || fgtb quantile (Fin 1)) eqn:Hq.
  { by rewrite normalize_quantile_bad_quantile. }
  destruct key_n_counts as [key|].
  { by rewrite normalize_quantile_key_raises. }
  destruct (decide (valid_layer_norm layer_norm)) as [Hln|Hln];
    [|by rewrite normalize_quantile_bad_layer_norm].
  destruct (layer_after_valid layer_norm cell_sum_after
              (counts_per_cell (X data) quantile)
              (cell_subset (counts_per_cell (X data) quantile) min_counts) Hln)
    as [after Hafter].
  rewrite (normalize_quantile_run _ _ _ _ _ _ _ after Hq Hafter).
  match goal with
  | |- context [normalize_layers ?n ?a ?i ?d ?t] =>
      pose proof (normalize_layers_outcome n a i d t) as Hout;
      change (first_missing d n) with (first_missing data n) in Hout;
      destruct (normalize_layers n a i d t) as [[e|dat'] data2]
  end;
    destruct (first_missing data (selected_layers data layers_)) as [n|]; simpl in *.
  - by injection Hout as ->.
  - by destruct Hout.
  - discriminate Hout.
  - eexists. split; [done|]. by destruct inplace.
Qed.

(** ** A missing layer *)

Lemma normalize_layers_app (pre rest : list string) (after : option np_float)
    (inplace : bool) (data : AnnData) (dat : dat_t) :
  normalize_layers (pre ++ rest) after inplace data dat
  = match normalize_layers pre after inplace data dat with
    | (inl e, data1) => (inl e, data1)
    | (inr dat1, data1) => normalize_layers rest after inplace data1 dat1
    end.
Proof.
  revert data dat. induction pre as [|layer pre IH]; intros data dat; [done|].
  rewrite <- app_comm_cons.
  destruct (layers data !! layer) as [L|] eqn:HL.
  - by rewrite !(normalize_layers_cons _ _ _ _ _ _ L HL), IH.
  - by rewrite !normalize_layers_missing.
Qed.

(** X4. An in-place call that names a missing layer raises [KeyError] with
    that name and undoes nothing: the primary matrix and the layers named
    before the missing one are scaled, every other layer is as it was. *)
Theorem missing_layer_keeps_earlier_scaling
    (data : AnnData) (cell_sum_after : option np_float)
    (quantile min_counts : np_float) (layer_norm : option string)
    (after : option np_float) (pre post : list string) (missing : string) :
  quantile_accepted quantile →
  layer_after layer_norm cell_sum_after (counts_per_cell (X data) quantile)
    (cell_subset (counts_per_cell (X data) quantile) min_counts) = inr after →
  NoDup pre → (∀ n, n ∈ pre → is_Some (layers data !! n)) →
  layers data !! missing = None →
  ∃ data',
    normalize_quantile data cell_sum_after quantile min_counts None true
      (LayersList (pre ++ missing :: post)) layer_norm
    = (inl (KeyError missing), data') ∧
    X data' = scaled_X data cell_sum_after quantile min_counts ∧
    ∀ n, layers data' !! n
         = if decide (n ∈ pre) then scaled_layer after <$> layers data !! n
           else layers data !! n.
Proof.
  intros Hq Hafter Hnd Hin Hmiss.
  rewrite (normalize_quantile_run _ _ _ _ _ _ _ after Hq Hafter).
  cbn [selected_layers]. rewrite normalize_layers_app.
  match goal with
  | |- context [normalize_layers pre ?a true ?d ?t] =>
      destruct (normalize_layers_inplace pre a d t Hnd) as (data' & Hrun & Hlook);
        [exact Hin|];
      pose proof (normalize_layers_X pre a true d t) as HX;
      rewrite Hrun in HX |- *
  end.
  assert (Hgone : layers data' !! missing = None).
  { rewrite Hlook. simpl. rewrite Hmiss. by destruct (decide (missing ∈ pre)). }
  rewrite normalize_layers_missing by done.
  exists data'. done.
Qed.

Lemma missing_layer_keeps_earlier_scaling_witness :
  ∃ data',
    normalize_quantile two_layers_example None (Fin 1) (fz 1) None true
      (LayersList (["a"] ++ "c" :: ["b"])) None
    = (inl (KeyError "c"), data') ∧
    X data' = scaled_X two_layers_example None (Fin 1) (fz 1) ∧
    ∀ n, layers data' !! n
         = if decide (n ∈ ["a"]) then scaled_layer None <$> layers two_layers_example !! n
           else layers two_layers_example !! n.
Proof.
  apply (missing_layer_keeps_earlier_scaling two_layers_example None (Fin 1) (fz 1)
           None None ["a"] ["b"] "c").
  - reflexivity.
  - reflexivity.
  - apply NoDup_singleton.
  - intros n ->%list_elem_of_singleton. exists (dense_of 1 [[1]; [3]]%Z). by_evaluation.
  - by_evaluation.
Defined.

(** ** Calls with [inplace=False] *)

(** The mapping a call with [inplace=False] returns, entry by entry. *)
Lemma normalize_quantile_copy_mapping (data : AnnData) (cell_sum_after : option np_float)
    (quantile min_counts : np_float) (layers_ : layers_arg) (layer_norm : option string)
    (after : option np_float) :
  quantile_accepted quantile →
  layer_after layer_norm cell_sum_after (counts_per_cell (X data) quantile)
    (cell_subset (counts_per_cell (X data) quantile) min_counts) = inr after →
  (∀ n, n ∈ selected_layers data layers_ → is_Some (layers data !! n)) →
  ∃ dat' : dat_t,
    normalize_quantile data cell_sum_after quantile min_counts None false layers_ layer_norm
    = (inr (Some dat'), data) ∧
    ∀ n, dat' !! n
         = if decide (n ∈ selected_layers data layers_)
           then layer_copy after <$> layers data !! n
           else if decide (n = "X")
                then Some (if issparse (X data) then None
                           else Some (scaled_X data cell_sum_after quantile min_counts))
                else None.
Proof.
  intros Hq Hafter Hin.
  rewrite (normalize_quantile_run _ _ _ _ _ _ _ after Hq Hafter).
  match goal with
  | |- context [normalize_layers ?n ?a false ?d ?t] =>
      destruct (normalize_layers_copy n a d t) as (dat' & Hrun & Hlook);
        [exact Hin|]
  end.
  rewrite Hrun. exists dat'. split; [by destruct data|].
  intros n. rewrite Hlook. cbn [layers].
  destruct (decide (n ∈ selected_layers data layers_)); [done|].
  destruct (decide (n = "X")) as [->|Hne].
  - by rewrite lookup_singleton_eq.
  - by rewrite lookup_singleton_ne.
Qed.

(** X5. A call with [inplace=False] that passes the checks leaves the data
    object as it was and returns what the in-place call would have left: under
    ['X'] the scaled primary matrix when it is dense (provided no selected
    layer is itself named ['X']), and under each selected name the scaled
    layer when it is dense. For a sparse matrix the entry is [None]. *)
Theorem inplace_false_returns_inplace_result
    (data : AnnData) (cell_sum_after : option np_float)
    (quantile min_counts : np_float) (layers_ : layers_arg) (layer_norm : option string) :
  quantile_accepted quantile → valid_layer_norm layer_norm →
  selection_ok data layers_ →
  ∃ (dat' : dat_t) (data' : AnnData),
    normalize_quantile data cell_sum_after quantile min_counts None false layers_ layer_norm
    = (inr (Some dat'), data) ∧
    normalize_quantile data cell_sum_after quantile min_counts None true layers_ layer_norm
    = (inr None, data') ∧
    ("X" ∉ selected_layers data layers_ →
     dat' !! "X" = Some (if issparse (X data) then None else Some (X data'))) ∧
    ∀ n L, n ∈ selected_layers data layers_ → layers data !! n = Some L →
           dat' !! n = Some (if issparse L then None else layers data' !! n).
Proof.
  intros Hq Hln Hsel.
  destruct (layer_after_valid layer_norm cell_sum_after
              (counts_per_cell (X data) quantile)
              (cell_subset (counts_per_cell (X data) quantile) min_counts) Hln)
    as [after Hafter].
  destruct (normalize_quantile_copy_mapping data cell_sum_after quantile min_counts
              layers_ layer_norm after Hq Hafter (proj2 Hsel)) as (dat' & Hcopy & Hdat).
  destruct (normalize_quantile_inplace_ok data cell_sum_after quantile min_counts
              layers_ layer_norm after Hq Hafter Hsel)
    as (data' & Hrun & HX & _ & Hlook).
  exists dat', data'. split; [exact Hcopy|]. split; [exact Hrun|]. split.
  - intros HnX. rewrite Hdat, decide_False, decide_True by done. by rewrite HX.
  - intros n L Hn HL. rewrite Hdat, Hlook, !decide_True, HL by done.
    simpl. by destruct L.
Qed.

Lemma inplace_false_returns_inplace_result_witness :
  ∃ (dat' : dat_t) (data' : AnnData),
    normalize_quantile two_layers_example None (Fin 1) (fz 1) None false
      (LayersList ["a"; "b"]) None
    = (inr (Some dat'), two_layers_example) ∧
    normalize_quantile two_layers_example None (Fin 1) (fz 1) None true
      (LayersList ["a"; "b"]) None
    = (inr None, data') ∧
    ("X" ∉ selected_layers two_layers_example (LayersList ["a"; "b"]) →
     dat' !! "X" = Some (if issparse (X two_layers_example) then None
                         else Some (X data'))) ∧
    ∀ n L, n ∈ selected_layers two_layers_example (LayersList ["a"; "b"]) →
           layers two_layers_example !! n = Some L →
           dat' !! n = Some (if issparse L then None else layers data' !! n).
Proof.
  apply (inplace_false_returns_inplace_result two_layers_example None (Fin 1) (fz 1)
           (LayersList ["a"; "b"]) None).
  - reflexivity.
  - by left.
  - split.
    + apply (bool_decide_unpack _). vm_compute. exact I.
    + intros n Hn. cbn [selected_layers] in Hn.
      rewrite !elem_of_cons in Hn. destruct Hn as [-> | [-> | Hn]].
      * exists (dense_of 1 [[1]; [3]]%Z). by_evaluation.
      * exists (dense_of 1 [[5]; [5]]%Z). by_evaluation.
      * by apply elem_of_nil in Hn.
Defined.

(** X6. The mapping returned by a successful call with [inplace=False] has
    exactly the keys ['X'] and the selected layer names. *)
Theorem returned_mapping_keys
    (data : AnnData) (cell_sum_after : option np_float)
    (quantile min_counts : np_float) (layers_ : layers_arg) (layer_norm : option string) :
  quantile_accepted quantile → valid_layer_norm layer_norm →
  (∀ n, n ∈ selected_layers data layers_ → is_Some (layers data !! n)) →
  ∃ dat' : dat_t,
    normalize_quantile data cell_sum_after quantile min_counts None false layers_ layer_norm
    = (inr (Some dat'), data) ∧
    ∀ n, is_Some (dat' !! n) ↔ n = "X" ∨ n ∈ selected_layers data layers_.
Proof.
  intros Hq Hln Hin.
  destruct (layer_after_valid layer_norm cell_sum_after
              (counts_per_cell (X data) quantile)
              (cell_subset (counts_per_cell (X data) quantile) min_counts) Hln)
    as [after Hafter].
  destruct (normalize_quantile_copy_mapping data cell_sum_after quantile min_counts
              layers_ layer_norm after Hq Hafter Hin) as (dat' & Hcopy & Hdat).
  exists dat'. split; [exact Hcopy|]. intros n. rewrite Hdat.
  destruct (decide (n ∈ selected_layers data layers_)) as [Hn|Hn].
  - split; [by right|]. intros _. destruct (Hin n Hn) as [L ->]. by eexists.
  - destruct (decide (n = "X")) as [->|Hne].
    + split; [by left|]. intros _. by eexists.
    + split; [by intros [? ?]|]. by intros [?|?].
Qed.

Lemma returned_mapping_keys_witness :
  ∃ dat' : dat_t,
    normalize_quantile two_layers_example None (Fin 1) (fz 1) None false
      (LayersList ["b"]) None
    = (inr (Some dat'), two_layers_example) ∧
    ∀ n, is_Some (dat' !! n) ↔
         n = "X" ∨ n ∈ selected_layers two_layers_example (LayersList ["b"]).
Proof.
  apply (returned_mapping_keys two_layers_example None (Fin 1) (fz 1)
           (LayersList ["b"]) None).
  - reflexivity.
  - by left.
  - intros n ->%list_elem_of_singleton. exists (dense_of 1 [[5]; [5]]%Z). by_evaluation.
Defined.

(** ** Witnesses for rows that stay as they are *)



(** ** The selection of the layers *)

Lemma not_in_keys_lookup (m : gmap string matrix) (n : string) :
  n ∉ (map_to_list m).*1 → m !! n = None.
Proof.
  intros Hn. destruct (m !! n) as [L|] eqn:HL; [|done].
  exfalso. apply Hn. apply list_elem_of_fmap. exists (n, L). split; [done|].
  by apply elem_of_map_to_list.
Qed.

(** X11. With [layers='all'] an in-place call that passes the checks never
    fails on a layer: it returns [None] and has scaled every layer of the data
    object towards the target of the layer policy. *)
Theorem select_all_scales_every_layer
    (data : AnnData) (cell_sum_after : option np_float)
    (quantile min_counts : np_float) (layer_norm : option string)
    (after : option np_float) :
  quantile_accepted quantile →
  layer_after layer_norm cell_sum_after (counts_per_cell (X data) quantile)
    (cell_subset (counts_per_cell (X data) quantile) min_counts) = inr after →
  ∃ data',
    normalize_quantile data cell_sum_after quantile min_counts None true
      (LayersStr "all") layer_norm = (inr None, data') ∧
    ∀ n, layers data' !! n = scaled_layer after <$> layers data !! n.
Proof.
  intros Hq Hafter.
  destruct (normalize_quantile_inplace_ok data cell_sum_after quantile min_counts
              (LayersStr "all") layer_norm after Hq Hafter (selection_ok_all data))
    as (data' & Hrun & _ & _ & Hlook).
  exists data'. split; [exact Hrun|]. intros n. rewrite Hlook.
  destruct (decide (n ∈ selected_layers data (LayersStr "all"))) as [Hn|Hn]; [done|].
  unfold selected_layers in Hn. rewrite decide_True in Hn by done.
  by rewrite (not_in_keys_lookup _ _ Hn).
Qed.

Lemma select_all_scales_every_layer_witness :
  ∃ data',
    normalize_quantile two_layers_example None (Fin 1) (fz 1) None true
      (LayersStr "all") (Some "after") = (inr None, data') ∧
    ∀ n, layers data' !! n = scaled_layer None <$> layers two_layers_example !! n.
Proof.
  apply (select_all_scales_every_layer two_layers_example None (Fin 1) (fz 1)
           (Some "after") None).
  - reflexivity.
  - reflexivity.
Defined.

(** X12. A layer name given as a plain string is not taken as one name: a
    string other than ['all'] is iterated character by character, so the call
    looks up the one-character name made of its first character and, when no
    layer has that name, raises [KeyError] with it, whether or not a layer
    with the whole string as its name exists. *)
Theorem string_selection_iterates_characters
    (data : AnnData) (cell_sum_after : option np_float)
    (quantile min_counts : np_float) (inplace : bool) (layer_norm : option string)
    (c : Ascii.ascii) (rest : string) :
  quantile_accepted quantile → valid_layer_norm layer_norm →
  String c rest ≠ "all" →
  layers data !! String c EmptyString = None →
  (normalize_quantile data cell_sum_after quantile min_counts None inplace
     (LayersStr (String c rest)) layer_norm).1
  = inl (KeyError (String c EmptyString)).
Proof.
  intros Hq Hln Hall Hmiss.
  destruct (layer_after_valid layer_norm cell_sum_after
              (counts_per_cell (X data) quantile)
              (cell_subset (counts_per_cell (X data) quantile) min_counts) Hln)
    as [after Hafter].
  rewrite (normalize_quantile_run _ _ _ _ _ _ _ after Hq Hafter).
  unfold selected_layers. rewrite decide_False by done.
  cbn [String.list_ascii_of_string]. rewrite fmap_cons.
  by rewrite normalize_layers_missing.
Qed.

Lemma string_selection_iterates_characters_witness :
  is_Some (layers spliced_example !! "spliced") ∧
  (normalize_quantile spliced_example None (Fin 1) (fz 1) None true
     (LayersStr "spliced") None).1
  = inl (KeyError "s").
Proof.
  split; [exists (dense_of 1 [[1]; [3]]%Z); by_evaluation|].
  apply (string_selection_iterates_characters spliced_example None (Fin 1) (fz 1)
           true None (Ascii.ascii_of_nat 115) "pliced").
  - reflexivity.
  - by left.
  - discriminate.
  - by_evaluation.
Defined.

(** ** Items selected by a mask *)

Lemma mask_select_elem {A} (mask : list bool) (a : list A) (x : A) :
  x ∈ mask_select mask a → ∃ j, mask !! j = Some true ∧ a !! j = Some x.
Proof.
  revert a. induction mask as [|b mask IH]; intros [|y a]; simpl;
    try (by intros ?%elem_of_nil).
  destruct b.
  - intros [-> | Hx]%elem_of_cons.
    + by exists 0%nat.
    + destruct (IH a Hx) as (j & Hm & Ha). by exists (S j).
  - intros Hx. destruct (IH a Hx) as (j & Hm & Ha). by exists (S j).
Qed.

(** * The program in the arithmetic of the array library *)

(** ** Exact arithmetic gives the functions above *)

Lemma exact_normalize_data (M : matrix) (counts : list np_float)
    (after : option np_float) (subset : option (list bool)) (copy : bool) :
  Generic._normalize_data exact M counts after subset copy
  = _normalize_data M counts after subset copy.
Proof. reflexivity. Qed.

Lemma exact_counts_per_cell (M : matrix) (quantile : np_float) :
  Generic.counts_per_cell exact M quantile = counts_per_cell M quantile.
Proof. reflexivity. Qed.

Lemma exact_normalize_quantile (data : AnnData) (cell_sum_after : option np_float)
    (quantile min_counts : np_float) (key_n_counts : option string)
    (inplace : bool) (layers_ : layers_arg) (layer_norm : option string) :
  Generic.normalize_quantile exact data cell_sum_after quantile min_counts key_n_counts
    inplace layers_ layer_norm
  = normalize_quantile data cell_sum_after quantile min_counts key_n_counts inplace
      layers_ layer_norm.
Proof. reflexivity. Qed.

Lemma exact_normalize_total (data : AnnData) (cell_sum_after : option np_float)
    (cpc : option (list np_float)) (key_n_counts : option string)
    (inplace : bool) (layers_ : layers_arg) (layer_norm : option string)
    (min_counts : np_float) :
  Generic.normalize_total exact data cell_sum_after cpc key_n_counts inplace layers_
    layer_norm min_counts
  = normalize_total data cell_sum_after cpc key_n_counts inplace layers_ layer_norm
      min_counts.
Proof. reflexivity. Qed.

(** ** The rounding of binary64 and binary32 *)

(** Values that Python and numpy print: [0.7], [90 * 0.7], [5 / 7] and
    [5 * (1 / 7)] in binary64, [5 / 7] in binary32, the largest binary64
    number and the first rational that rounds to [inf], the smallest
    positive binary64 number and half of it. *)
Example round_known_values :
  round binary64 (fq 7 10) = fq 3152519739159347 4503599627370496 ∧
  fl_mul (ieee binary64) (fz 90) (quantile_07 binary64)
  = fq 8866461766385663 140737488355328 ∧
  fgtb (fz 63) (fl_mul (ieee binary64) (fz 90) (quantile_07 binary64)) = true ∧
  fl_div (ieee binary64) (fz 5) (fz 7) = fq 6433713753386423 9007199254740992 ∧
  fl_mul (ieee binary64) (fz 5) (fl_div (ieee binary64) (fz 1) (fz 7))
  = fq 3216856876693211 4503599627370496 ∧
  fl_div (ieee binary32) (fz 5) (fz 7) = fq 5991863 8388608 ∧
  round binary64 (fz (2 ^ 1024 - 2 ^ 970 - 1)) = fz (2 ^ 1024 - 2 ^ 971) ∧
  round binary64 (fz (2 ^ 1024 - 2 ^ 970)) = PInf ∧
  round binary64 (fq 1 (2 ^ 1074)) = fq 1 (2 ^ 1074) ∧
  round binary64 (fq 1 (2 ^ 1075)) = Fin 0 ∧
  round binary64 (fq 3 (2 ^ 1075)) = fq 1 (2 ^ 1073).
Proof. repeat split; by_evaluation. Qed.

(** ** Rows as the pairs they hold *)

Lemma imap_pair_snd (g : nat → nat) (row : list np_float) :
  (imap (λ (j : nat) (x : np_float), (g j, x)) row).*2 = row.
Proof.
  revert g. induction row as [|x row IH]; intros g; [done|].
  rewrite imap_cons, fmap_cons. cbn [snd]. f_equal. apply (IH (g ∘ S)).
Qed.

(** Selecting with a mask is keeping the pairs whose column the mask
    retains. *)
Lemma mask_select_pairs (g : nat → nat) (m mask : list bool) (row : list np_float) :
  (∀ j, m !! g j = mask !! j) →
  (filter (λ e : nat * np_float, m !! e.1 = Some true)
     (imap (λ (j : nat) (x : np_float), (g j, x)) row)).*2
  = mask_select mask row.
Proof.
  revert g mask. induction row as [|x row IH]; intros g mask Hg; [by destruct mask|].
  rewrite imap_cons, filter_cons. cbn [fst].
  destruct mask as [|b mask].
  - rewrite decide_False by (by rewrite Hg).
    apply (IH (g ∘ S) []). intros j. simpl. by rewrite Hg.
  - assert (Htail : ∀ j, m !! (g ∘ S) j = mask !! j) by (intros j; simpl; by rewrite Hg).
    destruct b; simpl.
    + rewrite decide_True by (by rewrite Hg). rewrite fmap_cons. cbn [snd].
      f_equal. exact (IH (g ∘ S) mask Htail).
    + rewrite decide_False by (by rewrite Hg). exact (IH (g ∘ S) mask Htail).
Qed.

Section AnyArithmetic.

Context (A : arithmetic).

(** The sum of row [i] is the sum of the values the row holds. *)
Lemma fl_sum1_lookup (M : matrix) (i : nat) :
  Generic.sum1 A M !! i
  = (λ es : list (nat * np_float), fl_sum A es.*2) <$> entries M i.
Proof.
  destruct M as [n r|n r]; simpl; rewrite list_lookup_fmap; [|done].
  destruct (r !! i) as [row|]; simpl; [|done].
  by rewrite (imap_pair_snd id).
Qed.

(** The sum of row [i] of the column slice is the sum of the values the
    row holds in the columns of the mask. *)
Lemma fl_sum1_col_slice (mask : list bool) (M : matrix) (i : nat) :
  Generic.sum1 A (col_slice mask M) !! i = fl_sum A <$> kept_values mask M i.
Proof.
  unfold kept_values. destruct M as [n r|n r]; simpl; rewrite !list_lookup_fmap.
  - destruct (r !! i) as [row|]; simpl; [|done].
    by rewrite (mask_select_pairs id mask mask).
  - destruct (r !! i) as [es|]; simpl; [|done].
    do 2 f_equal. rewrite <- list_fmap_compose. by apply list_fmap_ext.
Qed.

(** ** The quantile filter in any arithmetic *)

Lemma fl_gt_rows_elem (M : matrix) (t : list np_float) (brow : list bool) :
  brow ∈ Generic.gt_rows A M t ↔
  ∃ i row ti, Generic.todense A M !! i = Some row ∧ t !! i = Some ti ∧
              brow = (λ x, fgtb x ti) <$> row.
Proof.
  unfold Generic.gt_rows. rewrite list_elem_of_lookup. split.
  - intros [i Hi]. rewrite lookup_zip_with in Hi.
    destruct (Generic.todense A M !! i) as [row|] eqn:Hrow; [|done].
    destruct (t !! i) as [ti|] eqn:Hti; [|done].
    injection Hi as <-. eauto 6.
  - intros (i & row & ti & Hrow & Hti & ->). exists i.
    by rewrite lookup_zip_with, Hrow, Hti.
Qed.

Lemma fl_gene_subset_of_length (M : matrix) (quantile : np_float) :
  length (Generic.gene_subset_of A M quantile) = n_vars M.
Proof. unfold Generic.gene_subset_of, sum0. by rewrite !length_fmap, length_seq. Qed.

Lemma fl_gene_subset_of_excluded (M : matrix) (quantile : np_float) (j : nat) :
  (j < n_vars M)%nat →
  Generic.gene_subset_of A M quantile !! j = Some false ↔
  ∃ i row total x,
    Generic.todense A M !! i = Some row ∧ Generic.sum1 A M !! i = Some total ∧
    row !! j = Some x ∧ fgtb x (fl_mul A total quantile) = true.
Proof.
  intros Hj. unfold Generic.gene_subset_of.
  rewrite list_lookup_fmap, sum0_lookup by done. simpl. split.
  - intros [= Hne%bool_decide_eq_false].
    destruct (filter _ _) as [|brow rest] eqn:Hf; [done|].
    assert (Hin : brow ∈ filter (λ row : list bool, row !! j = Some true)
                    (Generic.gt_rows A M
                       ((λ c, fl_mul A c quantile) <$> Generic.sum1 A M))).
    { rewrite Hf. left. }
    apply list_elem_of_filter in Hin as [Htrue Hin].
    apply fl_gt_rows_elem in Hin as (i & row & ti & Hrow & Hti & ->).
    simpl in Htrue. rewrite list_lookup_fmap in Hti. rewrite list_lookup_fmap in Htrue.
    destruct (Generic.sum1 A M !! i) as [total|] eqn:Htot; [|done].
    destruct (row !! j) as [x|] eqn:Hx; [|done].
    injection Hti as <-. injection Htrue as Htrue.
    exists i, row, total, x. done.
  - intros (i & row & total & x & Hrow & Htot & Hx & Hgt).
    f_equal. apply bool_decide_eq_false. intros Hnil%nil_length_inv.
    eapply (filter_nil_not_elem_of _ _ ((λ y, fgtb y (fl_mul A total quantile)) <$> row)).
    + exact Hnil.
    + simpl. by rewrite list_lookup_fmap, Hx, <- Hgt.
    + apply fl_gt_rows_elem. exists i, row, (fl_mul A total quantile).
      by rewrite list_lookup_fmap, Htot.
Qed.



Lemma fl_counts_per_cell_filtered (M : matrix) (quantile : np_float) (i : nat) :
  fltb quantile (Fin 1) = true →
  Generic.counts_per_cell A M quantile !! i
  = fl_sum A <$> kept_values (Generic.gene_subset_of A M quantile) M i.
Proof.
  intros Hq. unfold Generic.counts_per_cell, Generic.gene_subset. rewrite Hq.
  apply fl_sum1_col_slice.
Qed.


End AnyArithmetic.



(** Rounding moves the threshold: 63 is 0.7 times the row total 90, and is
    not above the exact product, but the binary64 product of 90 and 0.7 is
    62.99999999999999, so the code masks the first column out. *)
Example rounded_threshold_tie :
  Generic.gene_subset_of exact tie_example (fq 7 10) = [true; true] ∧
  Generic.gene_subset_of (ieee binary64) tie_example (quantile_07 binary64)
  = [false; true] ∧
  Generic.counts_per_cell (ieee binary64) tie_example (quantile_07 binary64) = [fz 27].
Proof. repeat split; by_evaluation. Qed.

(** ** The scaling step in any arithmetic *)

Section AnyArithmeticScaling.

Context (A : arithmetic).

(** Row [i] of a scaled matrix holds the pairs of the row, each value
    scaled with the divisor of the row. *)
Lemma entries_row_scale (M : matrix) (d : list np_float) (i : nat) :
  entries (Generic.row_scale A M d) i
  = di ← d !! i; scaled_entries A M di <$> entries M i.
Proof.
  destruct M as [n r|n r]; simpl.
  - unfold Generic.dense_row_div. rewrite lookup_zip_with.
    destruct (r !! i) as [row|], (d !! i) as [di|]; simpl; try done.
    f_equal. unfold scaled_entries. rewrite imap_fmap, fmap_imap.
    by apply imap_ext.
  - unfold Generic.inplace_row_scale. rewrite lookup_zip_with, list_lookup_fmap.
    destruct (r !! i) as [es|], (d !! i) as [di|]; simpl; done.
Qed.

Lemma row_scale_kind (M : matrix) (d : list np_float) :
  issparse (Generic.row_scale A M d) = issparse M ∧
  n_vars (Generic.row_scale A M d) = n_vars M.
Proof. by destruct M. Qed.

(** With no mask the divisor of a row is its sum over the target, guarded. *)
Lemma fl_divisors_all (counts : list np_float) (after : option np_float) :
  Generic.divisors A counts after None
  = Generic.row_divisor A (Generic.resolve_after A counts after None) <$> counts.
Proof.
  unfold Generic.divisors, Generic.zero_guard, Generic.divide_counts.
  by rewrite <- list_fmap_compose.
Qed.

Lemma fl_divisors_masked (counts : list np_float) (after : option np_float)
    (subset : list bool) (i : nat) :
  Generic.divisors A counts after (Some subset) !! i
  = c ← counts !! i; b ← subset !! i;
    Some (Generic.guard A
            (if b : bool
             then fl_div A c (Generic.resolve_after A counts after (Some subset))
             else Fin 1)).
Proof.
  unfold Generic.divisors, Generic.zero_guard, Generic.divide_counts.
  rewrite list_lookup_fmap, lookup_zip_with.
  by destruct (counts !! i), (subset !! i).
Qed.

Lemma fl_normalize_data_layer (L : matrix) (after : option np_float) (copy : bool) :
  Generic._normalize_data A L (Generic.sum1 A L) after None copy
  = (if copy then if issparse L then None else Some (Generic.scaled_layer A after L)
     else None,
     if copy then L else Generic.scaled_layer A after L).
Proof.
  unfold Generic._normalize_data, Generic.scaled_layer. rewrite fl_divisors_all.
  by destruct after.
Qed.

(** A scaled layer is the layer with every row scaled towards its target. *)
Lemma scaled_layer_towards (after : option np_float) (L : matrix) :
  scaled_towards A (Generic.layer_target A after L) L (Generic.scaled_layer A after L).
Proof.
  unfold Generic.scaled_layer.
  destruct (row_scale_kind L
              (Generic.row_divisor A (Generic.layer_target A after L) <$> Generic.sum1 A L))
    as [Hk Hn].
  split; [exact Hk|]. split; [exact Hn|].
  intros i. rewrite entries_row_scale, list_lookup_fmap, fl_sum1_lookup.
  by destruct (entries L i).
Qed.

(** A row whose divisor is one keeps its values when dividing by one and
    multiplying by the inverse of one do. *)
Lemma fl_row_scale_one (M : matrix) (d : list np_float) (i : nat)
    (es : list (nat * np_float)) :
  d !! i = Some (Fin 1) → entries M i = Some es →
  Forall (λ e : nat * np_float, unit_laws A e.2) es →
  same_row M (Generic.row_scale A M d) i.
Proof.
  intros Hd Hes Hlaws. destruct M as [n r|n r]; simpl in *.
  - unfold Generic.dense_row_div. rewrite lookup_zip_with, Hd.
    destruct (r !! i) as [row|]; simpl in *; [|done].
    injection Hes as <-. f_equal.
    rewrite <- (list_fmap_id row) at 1. apply list_fmap_ext. intros k x Hx. simpl.
    assert (Hin : (k, x) ∈ imap (λ (j : nat) (y : np_float), (j, y)) row).
    { apply list_elem_of_lookup. exists k. by rewrite list_lookup_imap, Hx. }
    symmetry. exact (proj1 (proj1 (Forall_forall _ _) Hlaws _ Hin)).
  - unfold Generic.inplace_row_scale. rewrite lookup_zip_with, list_lookup_fmap, Hd.
    rewrite Hes. simpl. f_equal.
    rewrite <- (list_fmap_id es) at 1. apply list_fmap_ext. intros k [j v] Hx. simpl.
    assert (Hin : (j, v) ∈ es) by (by eapply list_elem_of_lookup_2).
    f_equal. symmetry. exact (proj2 (proj1 (Forall_forall _ _) Hlaws _ Hin)).
Qed.

(** ** The loop over the layers in any arithmetic *)

Lemma fl_normalize_layers_X (names : list string) (after : option np_float)
    (inplace : bool) (data : AnnData) (dat : dat_t) :
  X (Generic.normalize_layers A names after inplace data dat).2 = X data ∧
  obs (Generic.normalize_layers A names after inplace data dat).2 = obs data.
Proof.
  revert data dat. induction names as [|layer rest IH]; intros data dat; [done|].
  cbn [Generic.normalize_layers]. destruct (layers data !! layer) as [L|]; [|done].
  rewrite fl_normalize_data_layer.
  match goal with
  | |- context [Generic.normalize_layers A rest after inplace ?d ?t] => exact (IH d t)
  end.
Qed.

Lemma fl_normalize_layers_inplace (names : list string) (after : option np_float)
    (data : AnnData) (dat : dat_t) :
  NoDup names → (∀ n, n ∈ names → is_Some (layers data !! n)) →
  ∃ data',
    Generic.normalize_layers A names after true data dat = (inr dat, data') ∧
    ∀ n, layers data' !! n
         = if decide (n ∈ names) then Generic.scaled_layer A after <$> layers data !! n
           else layers data !! n.
Proof.
  revert data. induction names as [|layer rest IH]; intros data Hnd Hin.
  - exists data. split; [done|]. intros n. rewrite decide_False; [done|]. apply not_elem_of_nil.
  - apply NoDup_cons in Hnd as [Hnotin Hnd].
    destruct (Hin layer) as [L HL]; [left|].
    cbn [Generic.normalize_layers]. rewrite HL, fl_normalize_data_layer. cbn [negb].
    destruct (IH (mkAnnData (X data)
                    (<[layer := Generic.scaled_layer A after L]> (layers data)) (obs data))
                 Hnd)
      as (data' & Hrun & Hlook).
    { intros n Hn. simpl. destruct (decide (layer = n)) as [->|Hne].
      - rewrite lookup_insert_eq. eauto.
      - rewrite lookup_insert_ne by done. apply Hin. by right. }
    exists data'. split; [exact Hrun|].
    intros n. rewrite Hlook. simpl.
    destruct (decide (n = layer)) as [->|Hne].
    + rewrite decide_False by done. rewrite decide_True by left.
      by rewrite lookup_insert_eq, HL.
    + rewrite lookup_insert_ne by done.
      destruct (decide (n ∈ rest)) as [Hr|Hr].
      * rewrite decide_True by (by right). done.
      * rewrite decide_False; [done|]. intros [?|?]%elem_of_cons; done.
Qed.

Lemma fl_normalize_layers_copy (names : list string) (after : option np_float)
    (data : AnnData) (dat : dat_t) :
  (∀ n, n ∈ names → is_Some (layers data !! n)) →
  ∃ dat',
    Generic.normalize_layers A names after false data dat = (inr dat', data) ∧
    ∀ n, dat' !! n
         = if decide (n ∈ names)
           then (λ L, if issparse L then None else Some (Generic.scaled_layer A after L))
                  <$> layers data !! n
           else dat !! n.
Proof.
  revert dat. induction names as [|layer rest IH]; intros dat Hin.
  - exists dat. split; [done|]. intros n. rewrite decide_False; [done|]. apply not_elem_of_nil.
  - destruct (Hin layer) as [L HL]; [left|].
    destruct (IH (<[layer := if issparse L then None
                             else Some (Generic.scaled_layer A after L)]> dat))
      as (dat' & Hrun & Hlook).
    { intros n Hn. apply Hin. by right. }
    exists dat'. split.
    + cbn [Generic.normalize_layers]. rewrite HL, fl_normalize_data_layer. cbn [negb].
      rewrite insert_id by done. destruct data as [X0 layers0 obs0]. exact Hrun.
    + intros n. rewrite Hlook.
      destruct (decide (n ∈ rest)) as [Hr|Hr].
      * rewrite decide_True by (by right). done.
      * destruct (decide (n = layer)) as [->|Hne].
        -- rewrite decide_True by left. by rewrite lookup_insert_eq, HL.
        -- rewrite lookup_insert_ne by done.
           rewrite decide_False; [done|]. intros [?|?]%elem_of_cons; done.
Qed.

(** ** Calls that pass the checks, in any arithmetic *)

(** What an in-place call leaves in the primary matrix. *)
Lemma fl_normalize_quantile_inplace_X (data : AnnData) (cell_sum_after : option np_float)
    (quantile min_counts : np_float) (layers_ : layers_arg) (layer_norm : option string) :
  quantile_accepted quantile → valid_layer_norm layer_norm →
  X (Generic.normalize_quantile A data cell_sum_after quantile min_counts None true
       layers_ layer_norm).2
  = Generic.row_scale A (X data)
      (Generic.divisors A (Generic.counts_per_cell A (X data) quantile) cell_sum_after
         (Some (cell_subset (Generic.counts_per_cell A (X data) quantile) min_counts))).
Proof.
  intros Hq Hln. unfold Generic.normalize_quantile. rewrite Hq. cbn [store_counts].
  assert (∃ after, Generic.layer_after A layer_norm cell_sum_after
                     (Generic.counts_per_cell A (X data) quantile)
                     (cell_subset (Generic.counts_per_cell A (X data) quantile) min_counts)
                   = inr after) as [after ->].
  { destruct Hln as [-> | [-> | ->]]; eexists; reflexivity. }
  unfold Generic._normalize_data at 1. cbn [negb].
  match goal with
  | |- context [Generic.normalize_layers A ?n ?a ?i ?d ?t] =>
      pose proof (proj1 (fl_normalize_layers_X n a i d t)) as HX;
      destruct (Generic.normalize_layers A n a i d t) as [[e|dat'] data2]
  end; exact HX.
Qed.

Lemma fl_normalize_quantile_inplace_ok (data : AnnData) (cell_sum_after : option np_float)
    (quantile min_counts : np_float) (layers_ : layers_arg) (layer_norm : option string)
    (after : option np_float) :
  quantile_accepted quantile →
  Generic.layer_after A layer_norm cell_sum_after
    (Generic.counts_per_cell A (X data) quantile)
    (cell_subset (Generic.counts_per_cell A (X data) quantile) min_counts) = inr after →
  selection_ok data layers_ →
  ∃ data',
    Generic.normalize_quantile A data cell_sum_after quantile min_counts None true layers_
      layer_norm = (inr None, data') ∧
    ∀ n, layers data' !! n
         = if decide (n ∈ selected_layers data layers_)
           then Generic.scaled_layer A after <$> layers data !! n
           else layers data !! n.
Proof.
  intros Hq Hafter [Hnd Hin]. unfold Generic.normalize_quantile. rewrite Hq.
  cbn [store_counts]. rewrite Hafter.
  unfold Generic._normalize_data at 1. cbn [negb].
  match goal with
  | |- context [Generic.normalize_layers A ?n ?a true ?d ?t] =>
      destruct (fl_normalize_layers_inplace n a d t Hnd) as (data' & Hrun & Hlook);
        [exact Hin|];
      rewrite Hrun
  end.
  exists data'. done.
Qed.

Lemma fl_normalize_quantile_copy_ok (data : AnnData) (cell_sum_after : option np_float)
    (quantile min_counts : np_float) (layers_ : layers_arg) (layer_norm : option string)
    (after : option np_float) :
  quantile_accepted quantile →
  Generic.layer_after A layer_norm cell_sum_after
    (Generic.counts_per_cell A (X data) quantile)
    (cell_subset (Generic.counts_per_cell A (X data) quantile) min_counts) = inr after →
  (∀ n, n ∈ selected_layers data layers_ → is_Some (layers data !! n)) →
  ∃ dat' : dat_t,
    Generic.normalize_quantile A data cell_sum_after quantile min_counts None false layers_
      layer_norm = (inr (Some dat'), data) ∧
    ∀ n, dat' !! n
         = if decide (n ∈ selected_layers data layers_)
           then (λ L, if issparse L then None else Some (Generic.scaled_layer A after L))
                  <$> layers data !! n
           else if decide (n = "X")
                then Some (if issparse (X data) then None
                           else Some (Generic.row_scale A (X data)
                                        (Generic.divisors A
                                           (Generic.counts_per_cell A (X data) quantile)
                                           cell_sum_after
                                           (Some (cell_subset
                                                    (Generic.counts_per_cell A (X data) quantile)
                                                    min_counts)))))
                else None.
Proof.
  intros Hq Hafter Hin. unfold Generic.normalize_quantile. rewrite Hq.
  cbn [store_counts]. rewrite Hafter.
  unfold Generic._normalize_data at 1. cbn [negb].
  match goal with
  | |- context [Generic.normalize_layers A ?n ?a false ?d ?t] =>
      destruct (fl_normalize_layers_copy n a d t) as (dat' & Hrun & Hlook);
        [exact Hin|];
      rewrite Hrun
  end.
  exists dat'. split; [by destruct data|].
  intros n. rewrite Hlook. cbn [layers].
  destruct (decide (n ∈ selected_layers data layers_)); [done|].
  destruct (decide (n = "X")) as [->|Hne].
  - by rewrite lookup_singleton_eq.
  - by rewrite lookup_singleton_ne.
Qed.

End AnyArithmeticScaling.

(** ** The laws of one in exact and in rounded arithmetic *)

Lemma exact_unit_laws (x : np_float) : unit_laws exact x.
Proof. split; [apply fdiv_one|apply fmul_inv_one]. Qed.

(** In the arithmetic of a format in which one is a number, one plus zero
    is one, and every number of the format divided by one, or multiplied by
    the inverse of one, is itself. *)
Lemma ieee_unit_laws (f : format) :
  representable f (Fin 1) →
  fl_add (ieee f) (Fin 1) (Fin 0) = Fin 1 ∧
  ∀ x, representable f x → unit_laws (ieee f) x.
Proof.
  unfold representable. intros H1. split.
  - cbn [fl_add ieee]. replace (fadd (Fin 1) (Fin 0)) with (Fin 1) by by_evaluation.
    exact H1.
  - intros x Hx. unfold unit_laws. cbn [fl_div fl_mul ieee].
    rewrite !fdiv_one, H1, Hx.
    pose proof (fmul_inv_one x) as Hm. rewrite fdiv_one in Hm. by rewrite Hm, Hx.
Qed.

Lemma one_representable : representable binary64 (Fin 1) ∧ representable binary32 (Fin 1).
Proof. unfold representable. split; by_evaluation. Qed.

(** ** Layers under [layer_norm = 'after'] *)



(** ** Rows below [min_counts] *)

(** C6, amended. In whatever arithmetic the library computes, provided
    one plus zero is one and each value of the row, divided by one or
    multiplied by the inverse of one, is itself (as in floating point): in
    every call that passes the argument checks, a row of the primary matrix
    whose row sum (over the columns that pass the quantile filter) is
    strictly below [min_counts] is left as it was. In place this is the row
    of [data.X]; with [inplace=False], on a selection of existing layers, it
    is the row of the copy returned under ['X'] when [X] is dense and no
    selected layer is itself named ['X']. Layers have no such mask: in
    place, on a selection of existing layers (none selected twice), every
    row of every selected layer is scaled towards the layer's target,
    whatever its row sum. *)
Theorem primary_row_below_min_counts_kept (A : arithmetic)
    (data : AnnData) (cell_sum_after : option np_float)
    (quantile min_counts : np_float) (layers_ : layers_arg)
    (layer_norm : option string) (i : nat) (c : np_float)
    (es : list (nat * np_float)) :
  quantile_accepted quantile → valid_layer_norm layer_norm →
  fl_add A (Fin 1) (Fin 0) = Fin 1 →
  entries (X data) i = Some es →
  Forall (λ e : nat * np_float, unit_laws A e.2) es →
  Generic.counts_per_cell A (X data) quantile !! i = Some c →
  fltb c min_counts = true →
  same_row (X data)
    (X (Generic.normalize_quantile A data cell_sum_after quantile min_counts None true
          layers_ layer_norm).2) i ∧
  ((∀ n, n ∈ selected_layers data layers_ → is_Some (layers data !! n)) →
   issparse (X data) = false → "X" ∉ selected_layers data layers_ →
   ∃ (dat' : dat_t) M',
     Generic.normalize_quantile A data cell_sum_after quantile min_counts None false
       layers_ layer_norm = (inr (Some dat'), data) ∧
     dat' !! "X" = Some (Some M') ∧ same_row (X data) M' i) ∧
  (selection_ok data layers_ →
   ∃ after data',
     Generic.layer_after A layer_norm cell_sum_after
       (Generic.counts_per_cell A (X data) quantile)
       (cell_subset (Generic.counts_per_cell A (X data) quantile) min_counts)
     = inr after ∧
     Generic.normalize_quantile A data cell_sum_after quantile min_counts None true
       layers_ layer_norm = (inr None, data') ∧
     ∀ n L, n ∈ selected_layers data layers_ → layers data !! n = Some L →
       ∃ L', layers data' !! n = Some L' ∧
             scaled_towards A (Generic.layer_target A after L) L L').
Proof.
  intros Hq Hln Hone Hes Hlaws Hc Hlow.
  assert (Hd : Generic.divisors A (Generic.counts_per_cell A (X data) quantile)
                 cell_sum_after
                 (Some (cell_subset (Generic.counts_per_cell A (X data) quantile)
                          min_counts)) !! i = Some (Fin 1)).
  { rewrite fl_divisors_masked, Hc, cell_subset_lookup, Hc. simpl.
    rewrite (fltb_not_fgeb _ _ Hlow). unfold Generic.guard.
    replace (feqb (Fin 1) (Fin 0)) with false by by_evaluation. simpl. by rewrite Hone. }
  assert (∃ after, Generic.layer_after A layer_norm cell_sum_after
                     (Generic.counts_per_cell A (X data) quantile)
                     (cell_subset (Generic.counts_per_cell A (X data) quantile) min_counts)
                   = inr after) as [after Hafter].
  { destruct Hln as [-> | [-> | ->]]; eexists; reflexivity. }
  split; [|split].
  - rewrite fl_normalize_quantile_inplace_X by done.
    by apply (fl_row_scale_one A _ _ _ es).
  - intros Hin Hdense HX.
    destruct (fl_normalize_quantile_copy_ok A data cell_sum_after quantile min_counts
                layers_ layer_norm after Hq Hafter Hin) as (dat' & Hrun & Hlook).
    eexists dat', _. split; [exact Hrun|]. split.
    + rewrite Hlook, decide_False, decide_True, Hdense by done. reflexivity.
    + by apply (fl_row_scale_one A _ _ _ es).
  - intros Hsel.
    destruct (fl_normalize_quantile_inplace_ok A data cell_sum_after quantile min_counts
                layers_ layer_norm after Hq Hafter Hsel) as (data' & Hrun & Hlook).
    exists after, data'. split; [done|]. split; [exact Hrun|].
    intros n L Hn HL. exists (Generic.scaled_layer A after L). split.
    + by rewrite Hlook, decide_True, HL.
    + apply scaled_layer_towards.
Qed.

Lemma primary_row_below_min_counts_kept_witness :
  same_row (X low_row_example)
    (X (Generic.normalize_quantile (ieee binary64) low_row_example None (Fin 1) (fz 6)
          None true (LayersList ["a"]) None).2) 0 ∧
  ((∀ n, n ∈ selected_layers low_row_example (LayersList ["a"]) →
         is_Some (layers low_row_example !! n)) →
   issparse (X low_row_example) = false →
   "X" ∉ selected_layers low_row_example (LayersList ["a"]) →
   ∃ (dat' : dat_t) M',
     Generic.normalize_quantile (ieee binary64) low_row_example None (Fin 1) (fz 6)
       None false (LayersList ["a"]) None = (inr (Some dat'), low_row_example) ∧
     dat' !! "X" = Some (Some M') ∧ same_row (X low_row_example) M' 0) ∧
  (selection_ok low_row_example (LayersList ["a"]) →
   ∃ after data',
     Generic.layer_after (ieee binary64) None None
       (Generic.counts_per_cell (ieee binary64) (X low_row_example) (Fin 1))
       (cell_subset (Generic.counts_per_cell (ieee binary64) (X low_row_example) (Fin 1))
          (fz 6))
     = inr after ∧
     Generic.normalize_quantile (ieee binary64) low_row_example None (Fin 1) (fz 6)
       None true (LayersList ["a"]) None = (inr None, data') ∧
     ∀ n L, n ∈ selected_layers low_row_example (LayersList ["a"]) →
       layers low_row_example !! n = Some L →
       ∃ L', layers data' !! n = Some L' ∧
             scaled_towards (ieee binary64)
               (Generic.layer_target (ieee binary64) after L) L L').
Proof.
  apply (primary_row_below_min_counts_kept (ieee binary64) low_row_example None (Fin 1)
           (fz 6) (LayersList ["a"]) None 0 (fz 5) [(0%nat, fz 5)]).
  - reflexivity.
  - by left.
  - by_evaluation.
  - reflexivity.
  - repeat constructor; by_evaluation.
  - by_evaluation.
  - reflexivity.
Defined.

(** ** The target of a layer under the other two policies *)

(** X7. In whatever arithmetic the library computes, in an in-place call
    that passes the checks on a selection of existing layers (none selected
    twice): under [layer_norm = None] every selected layer is scaled towards
    the median of its own row sums, and under [layer_norm = 'X'] towards the
    median of the qualifying row sums of the primary matrix, taken before
    the scaling; [cell_sum_after] plays no part under either. *)
Theorem layer_norm_policies_any_arithmetic (A : arithmetic)
    (data : AnnData) (cell_sum_after : option np_float)
    (quantile min_counts : np_float) (layers_ : layers_arg)
    (n : string) (L : matrix) :
  quantile_accepted quantile → selection_ok data layers_ →
  n ∈ selected_layers data layers_ → layers data !! n = Some L →
  (∃ data' L',
     Generic.normalize_quantile A data cell_sum_after quantile min_counts None true
       layers_ None = (inr None, data') ∧
     layers data' !! n = Some L' ∧
     scaled_towards A (Generic.np_median A (Generic.sum1 A L)) L L') ∧
  (∃ data' L',
     Generic.normalize_quantile A data cell_sum_after quantile min_counts None true
       layers_ (Some "X") = (inr None, data') ∧
     layers data' !! n = Some L' ∧
     scaled_towards A
       (Generic.np_median A
          (mask_select
             (cell_subset (Generic.counts_per_cell A (X data) quantile) min_counts)
             (Generic.counts_per_cell A (X data) quantile))) L L').
Proof.
  intros Hq Hsel Hn HL. split.
  - destruct (fl_normalize_quantile_inplace_ok A data cell_sum_after quantile min_counts
                layers_ None None Hq eq_refl Hsel) as (data' & Hrun & Hlook).
    exists data', (Generic.scaled_layer A None L). split; [exact Hrun|]. split.
    + by rewrite Hlook, decide_True, HL.
    + apply (scaled_layer_towards A None L).
  - destruct (fl_normalize_quantile_inplace_ok A data cell_sum_after quantile min_counts
                layers_ (Some "X") _ Hq eq_refl Hsel) as (data' & Hrun & Hlook).
    eexists data', _. split; [exact Hrun|]. split.
    + by rewrite Hlook, decide_True, HL.
    + apply (scaled_layer_towards A (Some _) L).
Qed.

Lemma layer_norm_policies_any_arithmetic_witness :
  ∃ data' L',
    Generic.normalize_quantile (ieee binary64) after_example (Some (fz 1)) (Fin 1) (fz 1)
      None true (LayersList ["a"]) (Some "X") = (inr None, data') ∧
    layers data' !! "a" = Some L' ∧
    scaled_towards (ieee binary64)
      (Generic.np_median (ieee binary64)
         (mask_select
            (cell_subset
               (Generic.counts_per_cell (ieee binary64) (X after_example) (Fin 1)) (fz 1))
            (Generic.counts_per_cell (ieee binary64) (X after_example) (Fin 1))))
      (dense_of 1 [[4]]%Z) L'.
Proof.
  apply (layer_norm_policies_any_arithmetic (ieee binary64) after_example (Some (fz 1))
           (Fin 1) (fz 1) (LayersList ["a"]) "a" (dense_of 1 [[4]]%Z)).
  - reflexivity.
  - split.
    + apply NoDup_singleton.
    + intros n ->%list_elem_of_singleton. exists (dense_of 1 [[4]]%Z). by_evaluation.
  - by apply list_elem_of_singleton.
  - by_evaluation.
Defined.

(** ** Each value of a qualifying row *)

(** X10. In whatever arithmetic the library computes, after an in-place
    call that passes the checks, every value of a qualifying row of the
    primary matrix (row sum at least [min_counts]) has been divided by the
    divisor of the row: the quotient of the row sum and the target total,
    plus 1 when the quotient is zero, where the target total is
    [cell_sum_after] when given and otherwise the median of the qualifying
    row sums (a sparse matrix multiplies by the inverse of the divisor). The
    row sum is taken over the columns that pass the quantile filter; all
    values of the row are scaled. *)
Theorem qualifying_row_divided_by_its_divisor (A : arithmetic)
    (data : AnnData) (cell_sum_after : option np_float)
    (quantile min_counts : np_float) (layers_ : layers_arg)
    (layer_norm : option string) (i : nat) (c : np_float)
    (es : list (nat * np_float)) :
  quantile_accepted quantile → valid_layer_norm layer_norm →
  entries (X data) i = Some es →
  Generic.counts_per_cell A (X data) quantile !! i = Some c →
  fgeb c min_counts = true →
  entries
    (X (Generic.normalize_quantile A data cell_sum_after quantile min_counts None true
          layers_ layer_norm).2) i
  = Some (scaled_entries A (X data)
            (Generic.row_divisor A
               (match cell_sum_after with
                | Some a => a
                | None =>
                    Generic.np_median A
                      (mask_select
                         (cell_subset (Generic.counts_per_cell A (X data) quantile)
                            min_counts)
                         (Generic.counts_per_cell A (X data) quantile))
                end) c) es).
Proof.
  intros Hq Hln Hes Hc Hqual.
  rewrite fl_normalize_quantile_inplace_X by done.
  rewrite entries_row_scale, fl_divisors_masked, Hc, cell_subset_lookup, Hc. simpl.
  rewrite Hqual, Hes. simpl. by destruct cell_sum_after.
Qed.

Lemma qualifying_row_divided_by_its_divisor_witness :
  entries
    (X (Generic.normalize_quantile (ieee binary64) quantile_example None
          (quantile_07 binary64) (fz 1) None true (LayersList []) None).2) 2
  = Some (scaled_entries (ieee binary64) (X quantile_example)
            (Generic.row_divisor (ieee binary64)
               (Generic.np_median (ieee binary64)
                  (mask_select
                     (cell_subset
                        (Generic.counts_per_cell (ieee binary64) (X quantile_example)
                           (quantile_07 binary64)) (fz 1))
                     (Generic.counts_per_cell (ieee binary64) (X quantile_example)
                        (quantile_07 binary64)))) (fz 7))
            [(0%nat, fz 5); (1%nat, fz 6); (2%nat, fz 1)]).
Proof.
  apply (qualifying_row_divided_by_its_divisor (ieee binary64) quantile_example None
           (quantile_07 binary64) (fz 1) (LayersList []) None 2 (fz 7)).
  - reflexivity.
  - by left.
  - reflexivity.
  - by_evaluation.
  - reflexivity.
Defined.

(** ** The quantile zero *)

Lemma ieee_zero_laws (f : format) : zero_laws (ieee f).
Proof.
  split.
  - intros [t| | |] Ht; try done. cbn [fl_mul ieee]. unfold fmul.
    by replace (t * 0) with (Q2Qc 0) by ring.
  - intros a Ha. cbn [fl_sum ieee]. induction Ha as [|x a -> _ IH]; [done|].
    simpl. exact IH.
Qed.

Lemma exact_zero_laws : zero_laws exact.
Proof.
  split.
  - intros [t| | |] Ht; try done. cbn [fl_mul exact]. unfold fmul.
    by replace (t * 0) with (Q2Qc 0) by ring.
  - apply np_sum_zeros.
Qed.

(** A number that is not negative and not above zero is zero. *)
Lemma not_above_zero (x : np_float) :
  fleb (Fin 0) x = true → fgtb x (Fin 0) ≠ true → x = Fin 0.
Proof.
  destruct x as [q| | |]; unfold fgtb, fltb, fleb; try done.
  intros Hle%bool_decide_eq_true Hgt. f_equal.
  apply Qcle_antisym; [|done]. apply Qcnot_lt_le. intros Hpos.
  apply Hgt. by apply bool_decide_eq_true.
Qed.

Section QuantileZero.

Context (A : arithmetic).

(** Scaling with divisors that are all one changes nothing. *)
Lemma fl_row_scale_id (M : matrix) (d : list np_float) :
  (∀ i es, entries M i = Some es →
           d !! i = Some (Fin 1) ∧ Forall (λ e : nat * np_float, unit_laws A e.2) es) →
  Generic.row_scale A M d = M.
Proof.
  intros Hd.
  assert (Hrows : ∀ i, same_row M (Generic.row_scale A M d) i).
  { intros i. destruct (entries M i) as [es|] eqn:Hes.
    - destruct (Hd i es Hes) as [Hone Hlaws]. by apply (fl_row_scale_one A M d i es).
    - destruct M as [n r|n r]; simpl in *.
      + unfold Generic.dense_row_div. rewrite lookup_zip_with.
        by destruct (r !! i).
      + unfold Generic.inplace_row_scale. rewrite lookup_zip_with. by rewrite Hes. }
  destruct M as [n r|n r]; simpl in *; f_equal; symmetry; apply list_eq, Hrows.
Qed.

(** Under quantile zero the columns that pass the filter hold no positive
    value, so in a matrix without negative values they hold zeros. *)
Lemma fl_quantile_zero_selected_values (n : nat) (r : list (list np_float))
    (i : nat) (row : list np_float) (x : np_float) :
  (∀ t, is_finite t → fl_mul A t (Fin 0) = Fin 0) →
  Forall (Forall (λ x, fleb (Fin 0) x = true)) r →
  Forall is_finite (Generic.sum1 A (Dense n r)) →
  r !! i = Some row →
  x ∈ mask_select (Generic.gene_subset_of A (Dense n r) (Fin 0)) row →
  x = Fin 0.
Proof.
  intros Hmul Hr Hfin Hrow Hx.
  pose proof (Forall_lookup_1 _ _ _ _ Hr Hrow) as Hnonneg.
  destruct (mask_select_elem _ _ _ Hx) as (j & Hmask & Hj).
  apply not_above_zero; [exact (Forall_lookup_1 _ _ _ _ Hnonneg Hj)|].
  intros Hgt.
  assert (Htot : Generic.sum1 A (Dense n r) !! i = Some (fl_sum A row)).
  { simpl. by rewrite list_lookup_fmap, Hrow. }
  assert (Hex : Generic.gene_subset_of A (Dense n r) (Fin 0) !! j = Some false).
  { apply fl_gene_subset_of_excluded.
    - apply lookup_lt_Some in Hmask. by rewrite fl_gene_subset_of_length in Hmask.
    - exists i, row, (fl_sum A row), x. split; [done|]. split; [done|]. split; [done|].
      by rewrite (Hmul _ (Forall_lookup_1 _ _ _ _ Hfin Htot)). }
  congruence.
Qed.

(** X13. In whatever arithmetic the library computes, provided a finite
    number times zero is zero, a sum of zeros is zero, one plus zero is one,
    and each value of the matrix divided by one is itself (as in floating
    point): quantile zero is accepted and switches the normalization of a
    count matrix off. On a dense primary matrix without negative values
    whose row totals are finite (no sum overflows), every column with a
    positive value is filtered out, the row sums are zero, no row reaches a
    positive [min_counts], and the in-place call leaves the primary matrix
    as it was. *)
Theorem quantile_zero_keeps_count_matrix
    (data : AnnData) (cell_sum_after : option np_float) (m : Qc)
    (layers_ : layers_arg) (layer_norm : option string)
    (n : nat) (r : list (list np_float)) :
  X data = Dense n r →
  Forall (Forall (λ x, fleb (Fin 0) x = true ∧ unit_laws A x)) r →
  Forall is_finite (Generic.sum1 A (X data)) →
  zero_laws A → fl_add A (Fin 1) (Fin 0) = Fin 1 →
  0 < m → valid_layer_norm layer_norm →
  Forall (λ c, c = Fin 0) (Generic.counts_per_cell A (X data) (Fin 0)) ∧
  X (Generic.normalize_quantile A data cell_sum_after (Fin 0) (Fin m) None true layers_
       layer_norm).2 = X data.
Proof.
  intros HX Hr Hfin [Hmul Hsum] Hone Hm Hln.
  assert (Hnonneg : Forall (Forall (λ x, fleb (Fin 0) x = true)) r).
  { eapply Forall_impl; [exact Hr|]. intros row Hrow.
    eapply Forall_impl; [exact Hrow|]. by intros x [? _]. }
  assert (Hcounts : Forall (λ c, c = Fin 0) (Generic.counts_per_cell A (X data) (Fin 0))).
  { rewrite HX in Hfin |- *. unfold Generic.counts_per_cell, Generic.gene_subset.
    replace (fltb (Fin 0) (Fin 1)) with true by (by vm_compute).
    cbn [Generic.masked_sums col_slice Generic.sum1]. rewrite <- list_fmap_compose.
    apply Forall_fmap, Forall_lookup. intros i row Hrow. cbn [compose].
    apply Hsum, Forall_forall. intros x Hx.
    by apply (fl_quantile_zero_selected_values n r i row x). }
  split; [exact Hcounts|].
  rewrite (fl_normalize_quantile_inplace_X A _ _ (Fin 0) _ _ layer_norm eq_refl Hln).
  apply fl_row_scale_id. intros i es Hes.
  assert (Hc : is_Some (Generic.counts_per_cell A (X data) (Fin 0) !! i)).
  { rewrite fl_counts_per_cell_filtered by done. unfold kept_values. by rewrite Hes. }
  destruct Hc as [c Hc]. split.
  - rewrite fl_divisors_masked, Hc, cell_subset_lookup, Hc.
    cbn [fmap option_fmap option_map mbind option_bind].
    rewrite (Forall_lookup_1 _ _ _ _ Hcounts Hc).
    assert (fgeb (Fin 0) (Fin m) = false) as ->.
    { unfold fgeb, fleb. apply bool_decide_eq_false. by apply Qclt_not_le. }
    unfold Generic.guard.
    replace (feqb (Fin 1) (Fin 0)) with false by by_evaluation. simpl. by rewrite Hone.
  - rewrite HX in Hes. simpl in Hes.
    destruct (r !! i) as [row|] eqn:Hrow; [|done]. injection Hes as <-.
    pose proof (Forall_lookup_1 _ _ _ _ Hr Hrow) as Hlaws.
    apply Forall_forall. intros [j x] [k Hk]%list_elem_of_lookup_1.
    rewrite list_lookup_imap in Hk.
    destruct (row !! k) as [y|] eqn:Hy; [|done]. injection Hk as <- <-. simpl.
    exact (proj2 (Forall_lookup_1 _ _ _ _ Hlaws Hy)).
Qed.

End QuantileZero.

Lemma quantile_zero_keeps_count_matrix_witness :
  Forall (λ c, c = Fin 0)
    (Generic.counts_per_cell (ieee binary64) (X total_example) (Fin 0)) ∧
  X (Generic.normalize_quantile (ieee binary64) total_example None (Fin 0)
       (Fin (Q2Qc (inject_Z 1))) None true (LayersList []) None).2 = X total_example.
Proof.
  apply (quantile_zero_keeps_count_matrix (ieee binary64) total_example None
           (Q2Qc (inject_Z 1)) (LayersList []) None 2
           [[fz 1; fz 0]; [fz 3; fz 0]; [fz 5; fz 6]]).
  - reflexivity.
  - repeat constructor; by_evaluation.
  - vm_compute. repeat constructor.
  - apply ieee_zero_laws.
  - by_evaluation.
  - reflexivity.
  - by left.
Defined.

(** ** What rounding does to a row total *)

(** The exact properties of the scaling do not carry over to a rounded
    arithmetic. In binary64 the row [[1, 6]] scaled towards the total 3 sums
    to 2.9999999999999996; the dense branch leaves 5/7 as
    0.7142857142857143 where the sparse branch, which multiplies by the
    rounded inverse, leaves 0.7142857142857142; and a row whose sum
    overflows is scaled to zeros. *)
Example rounded_row_total :
  Generic.sum1 (ieee binary64)
    (X (Generic.normalize_total (ieee binary64) (adata_of (dense_of 2 [[1; 6]]%Z))
          (Some (fz 3)) None None true (LayersList []) None (fz 1)).2)
  = [round binary64 (fq 29999999999999996 10000000000000000)] ∧
  round binary64 (fq 29999999999999996 10000000000000000) ≠ fz 3.
Proof. split; [by_evaluation|]. intros H. vm_compute in H. discriminate H. Qed.

Example sparse_branch_rounds_twice :
  Generic.scale_value (ieee binary64) (X quantile_example) (fz 7) (fz 5)
  = round binary64 (fq 7142857142857143 10000000000000000) ∧
  Generic.scale_value (ieee binary64) sparse_quantile_matrix (fz 7) (fz 5)
  = round binary64 (fq 7142857142857142 10000000000000000) ∧
  round binary64 (fq 7142857142857143 10000000000000000)
  ≠ round binary64 (fq 7142857142857142 10000000000000000).
Proof.
  split; [by_evaluation|]. split; [by_evaluation|].
  intros H. vm_compute in H. discriminate H.
Qed.

Example overflowing_row_total :
  Generic.sum1 (ieee binary64)
    (Dense 2 [[round binary64 (fz (10 ^ 308)); round binary64 (fz (10 ^ 308))]])
  = [PInf] ∧
  X (Generic.normalize_total (ieee binary64)
       (adata_of (Dense 2 [[round binary64 (fz (10 ^ 308));
                            round binary64 (fz (10 ^ 308))]]))
       (Some (fz 1)) None None true (LayersList []) None (fz 1)).2
  = Dense 2 [[Fin 0; Fin 0]].
Proof. split; by_evaluation. Qed.

(** The docstring example of [normalize_total] in binary64 and in binary32:
    the rows of [[1,0],[3,0],[5,6]] sum to 3, the median of 1, 3 and 11,
    after the default call, and to 1 with [cell_sum_after = 1]. *)
Example total_example_rounded (f : format) :
  f = binary64 ∨ f = binary32 →
  Generic.sum1 (ieee f)
    (X (Generic.normalize_total (ieee f) total_example None None None true
          (LayersList []) None (fz 1)).2) = [fz 3; fz 3; fz 3] ∧
  Generic.sum1 (ieee f)
    (X (Generic.normalize_total (ieee f) total_example (Some (fz 1)) None None true
          (LayersList []) None (fz 1)).2) = [fz 1; fz 1; fz 1].
Proof. intros [-> | ->]; split; by_evaluation. Qed.

(** ** The zero guard in rounded arithmetic *)

(** The defect of the zero guard does not depend on rounding: in binary64
    and in binary32 the default call with [min_counts = 0] turns the empty
    rows of [[0],[0],[1]] into [nan], and a layer [[0],[0],[1]] selected in
    a default call is left as [[nan],[nan],[0]]. *)
Example zero_guard_misses_nan_rounded (f : format) :
  f = binary64 ∨ f = binary32 →
  Generic.normalize_quantile (ieee f) zero_rows_example None (Fin 1) (fz 0) None true
    (LayersList []) None
  = (inr None, adata_of (Dense 1 [[NaN]; [NaN]; [fz 0]])) ∧
  Generic.normalize_quantile (ieee f) empty_rows_example None (Fin 1) (fz 1) None true
    (LayersList ["a"]) None
  = (inr None,
     mkAnnData (dense_of 1 [[2]; [2]; [2]]%Z)
       {[ "a" := Dense 1 [[NaN]; [NaN]; [fz 0]] ]} ∅).
Proof. intros [-> | ->]; split; by_evaluation. Qed.
